(** * Shallow embedding of the gxchain2 full node core

    The development models, from the TypeScript sources, the pieces of the
    node that the specification's claims are about: the peer ban table of
    [Libp2pNode], the block download and sync pipeline of
    [FullSynchronizer], the commit loop and pending block of [Worker], the
    transaction journal of [Jonunal] and the [addPendingTxs] funnel of
    [Node].  Times are milliseconds as [Z]; heights are [Z]. *)

From Stdlib Require Import ZArith Lia List Bool.
From stdpp Require Import base gmap strings list.
Import ListNotations.

Open Scope Z_scope.

(** ** Libp2pNode: ban table (gxchain-network/src/p2p.ts) *)

Module P2P.

(** The two fields of [Libp2pNode] the ban logic touches: the
    [started] flag and the [banned] map from peer id to expiry time. *)
Record Libp2pNode := mkNode {
  started : bool;
  banned : gmap string Z
}.

(** [ban(peerId, maxAge = 60000)]; [now] is [Date.now()]. *)
Definition ban (now : Z) (n : Libp2pNode) (peerId : string)
    (maxAge : option Z) : bool * Libp2pNode :=
  if negb (started n) then (false, n)
  else
    let age := default 60000 maxAge in
    (true, mkNode (started n) (<[peerId := now + age]> (banned n))).

(** [isBanned(peerId)]: [expireTime && expireTime > Date.now()] is
    false for an absent entry and for an expiry of [0]. *)
Definition isBanned (now : Z) (n : Libp2pNode) (peerId : string)
    : bool * Libp2pNode :=
  match banned n !! peerId with
  | Some e =>
      if negb (e =? 0) && (now <? e) then (true, n)
      else (false, mkNode (started n) (delete peerId (banned n)))
  | None => (false, mkNode (started n) (delete peerId (banned n)))
  end.

End P2P.

(** ** FullSynchronizer (gxchain-core/src/sync/fullsync.ts) *)

Module FullSync.

(** [type Task = { start: number; count: number }] *)
Record Task := mkTask { start : Z; count : Z }.

(** JavaScript's [options.x || d] on a numeric option: an absent option
    and the falsy value [0] both give the default. *)
Definition or_default (o : option Z) (d : Z) : Z :=
  match o with
  | Some v => if v =? 0 then d else v
  | None => d
  end.

Record FullSynchronizerOptions := mkOptions {
  opt_limit : option Z;
  opt_count : option Z;
  opt_timeoutBanTime : option Z;
  opt_errorBanTime : option Z
}.

(** The fields the constructor computes from its options. *)
Record FullSynchronizer := mkSync {
  limit : Z;
  count_ : Z;
  timeoutBanTime : Z;
  errorBanTime : Z
}.

Definition construct (o : FullSynchronizerOptions) : FullSynchronizer :=
  mkSync (or_default (opt_limit o) 16)
         (or_default (opt_count o) 128)
         (or_default (opt_timeoutBanTime o) 300000)
         (or_default (opt_errorBanTime o) 60000).

(** The scan for the best peer in [sync]: [bestHeight] starts at the
    local height and a peer is taken when its height is strictly
    greater than the best so far.  Peers are [(peerId, height)]. *)
Fixpoint find_best (best : option string) (bestHeight : Z)
    (peers : list (string * Z)) : option string * Z :=
  match peers with
  | [] => (best, bestHeight)
  | (p, h) :: rest =>
      if bestHeight <? h then find_best (Some p) h rest
      else find_best best bestHeight rest
  end.

(** The task loop of [sync]:
    [while (totalCount > 0) { insert({start: taskCount++ * count +
    latestHeight + 1, count: totalCount > count ? count : totalCount});
    totalCount -= count; }].  The loop runs at most [totalCount] times
    when [count >= 1], which bounds the fuel. *)
Fixpoint task_loop (fuel : nat) (count latestHeight taskCount totalCount : Z)
    : list Task :=
  match fuel with
  | O => []
  | S f =>
      if 0 <? totalCount then
        mkTask (taskCount * count + latestHeight + 1)
               (if count <? totalCount then count else totalCount)
        :: task_loop f count latestHeight (taskCount + 1) (totalCount - count)
      else []
  end.

Definition schedule_tasks (count latestHeight bestHeight : Z) : list Task :=
  task_loop (Z.to_nat (bestHeight - latestHeight)) count latestHeight 0
            (bestHeight - latestHeight).

(** Outcome of an awaited call that may throw. *)
Inductive outcome := Ok | Err.

(** The producer promise of [sync]: it resolves [true] only when a best
    peer was found and [downloadQueue.start(taskCount)] completed;
    without a best peer it aborts the result channel and resolves
    [false].  It also returns [bestHeight] (a variable shared with the
    final comparison) and the inserted tasks. *)
Definition producer (s : FullSynchronizer) (latestHeight : Z)
    (peers : list (string * Z)) (start_res : outcome)
    : bool * Z * list Task :=
  let '(best, bestHeight) := find_best None latestHeight peers in
  match best with
  | Some _ =>
      let tasks := schedule_tasks (count_ s) latestHeight bestHeight in
      (match start_res with Ok => true | Err => false end, bestHeight, tasks)
  | None => (false, bestHeight, [])
  end.

(** The consumer promise resolves [true] iff its loop ended without a
    thrown error. *)
Definition consumer_result (c : outcome) : bool :=
  match c with Ok => true | Err => false end.

(** [results.reduce((a, b) => a && b, true) &&
    bestHeight === this.node.blockchain.latestHeight] *)
Definition sync_return (results : list bool) (bestHeight finalHeight : Z)
    : bool :=
  fold_left andb results true && (bestHeight =? finalHeight).

Inductive sync_result := Returns (b : bool) | Throws.

(** [sync()] with the effects of its two promises as inputs: whether
    the queue's [start] and the consumer loop threw, and the local
    height read at the end. *)
Definition sync (isSyncing : bool) (s : FullSynchronizer)
    (latestHeight : Z) (peers : list (string * Z))
    (start_res cons_res : outcome) (finalHeight : Z) : sync_result :=
  if isSyncing then Throws
  else
    let '(r1, bestHeight, _) := producer s latestHeight peers start_res in
    Returns (sync_return [r1; consumer_result cons_res] bestHeight finalHeight).

End FullSync.

(** ** [FullSynchronizer.download] (gxchain-core/src/sync/fullsync.ts) *)

Module Download.
Import FullSync.

(** Errors the method can meet: the request's [PeerRequestTimeoutError],
    any other error of the request or of [Block.fromBlockData], and the
    [TypeError] of dereferencing an [undefined] peer. *)
Inductive error := PeerRequestTimeoutError | OtherError | TypeError.

(** What [peer.getBlockHeaders(start, count)] settles with; headers
    are represented by their block numbers. *)
Inductive request_result :=
| Headers (hs : list Z)
| Fails (e : error).

(** The peer pool as the method sees it: the [idle] flag of each peer
    and the log of [peerpool.ban(peer, time)] calls. *)
Record Pool := mkPool {
  idle : gmap string bool;
  bans : list (string * Z)
}.

Inductive dl_result := Returns (blocks : list Z) | Throws (e : error).

Definition set_idle (p : string) (b : bool) (st : Pool) : Pool :=
  mkPool (<[p := b]> (idle st)) (bans st).

Definition ban (p : string) (t : Z) (st : Pool) : Pool :=
  mkPool (idle st) (bans st ++ [(p, t)]).

Section download.
(** [Block.fromBlockData({ header: h })]; [None] when it throws. *)
Variable fromBlockData : Z -> option Z.

Fixpoint build_blocks (hs : list Z) : option (list Z) :=
  match hs with
  | [] => Some []
  | h :: rest =>
      match fromBlockData h, build_blocks rest with
      | Some b, Some bs => Some (b :: bs)
      | _, _ => None
      end
  end.

(** The [catch (err)] block of the request phase. *)
Definition on_error (s : FullSynchronizer) (p : string) (e : error)
    (st : Pool) : Pool * dl_result :=
  let st1 := set_idle p true st in
  match e with
  | PeerRequestTimeoutError => (ban p (timeoutBanTime s) st1, Throws e)
  | _ => (ban p (errorBanTime s) st1, Throws e)
  end.

(** [download(task)].  [acquired] is what [idlePeerQueue.next()] gave:
    [None] when it threw or returned [undefined] (the error is then
    emitted and [peer] stays [undefined]).  The task fixes the request
    arguments; the request's settlement is the input [req]. *)
Definition download (s : FullSynchronizer) (st : Pool)
    (acquired : option string) (req : request_result)
    : Pool * dl_result :=
  match acquired with
  | None =>
      (* [peer.getBlockHeaders] and then [peer.idle = true] in the
         catch block both throw on [undefined] *)
      (st, Throws TypeError)
  | Some p =>
      let st0 := set_idle p false st in
      match req with
      | Headers hs =>
          match build_blocks hs with
          | Some bs => (set_idle p true st0, Returns bs)
          | None => on_error s p OtherError st0
          end
      | Fails e => on_error s p e st0
      end
  end.
End download.

End Download.

(** ** The download pipeline of [FullSynchronizer.sync]

    [OrderedQueue] and [AysncChannel] come from [@gxchain2/utils], which
    is not among the sources; they are modelled from the spec (4.1, 4.2).
    The wiring is the constructor's: the queue's [result] event pushes the
    result into [resultQueue], its [over] event calls
    [resultQueue.abort()], and the consumer loop of [sync] runs
    [processBlocks] on each item it reads. *)

Module Pipeline.

(** A released result: the task's index in insertion order (kept to
    state the ordering claim) and the downloaded block numbers. *)
Definition item := (nat * list Z)%type.

Inductive consumer := Waiting | Busy (it : item) | Finished.

Record St := mkSt {
  done_ : list item;     (* completed, not yet released *)
  next : nat;            (* index of the next result to release *)
  total : nat;           (* expected count given to [start] *)
  buf : list item;       (* buffered items of [resultQueue] *)
  aborted : bool;        (* [resultQueue] aborted *)
  cons : consumer;       (* the consumer loop of [sync] *)
  received : list nat;   (* indices the consumer has read, in order *)
  height : Z             (* [node.blockchain.latestHeight] *)
}.

Definition init (total latestHeight : Z) : St :=
  mkSt [] 0 (Z.to_nat total) [] false Waiting [] latestHeight.

(** Modelled from the spec: [AysncChannel.push] (4.2).  A pending read
    takes the item at once; otherwise it is buffered ([resultQueue] has
    no capacity bound, so no drop policy applies).  Items pushed after
    [abort] are never read. *)
Definition push (it : item) (st : St) : St :=
  if aborted st then st
  else match cons st with
       | Waiting =>
           mkSt (done_ st) (next st) (total st) (buf st) (aborted st)
                (Busy it) (received st ++ [fst it]) (height st)
       | _ =>
           mkSt (done_ st) (next st) (total st) (buf st ++ [it]) (aborted st)
                (cons st) (received st) (height st)
       end.

(** Modelled from the spec: [AysncChannel.abort] (4.2), which "makes
    all pending and future reads return end-of-sequence". *)
Definition abort (st : St) : St :=
  mkSt (done_ st) (next st) (total st) (buf st) true
       (match cons st with Waiting => Finished | c => c end)
       (received st) (height st).

Fixpoint lookup_done (i : nat) (l : list item) : option (list Z) :=
  match l with
  | [] => None
  | (j, r) :: rest => if Nat.eqb i j then Some r else lookup_done i rest
  end.

Definition remove_done (i : nat) (l : list item) : list item :=
  List.filter (fun it => negb (Nat.eqb i (fst it))) l.

(** Modelled from the spec: the in-order release of [OrderedQueue]
    (4.1).  While the result of index [next] is buffered it is emitted
    as a [result] event ([resultQueue.push]); when [total] results have
    been emitted the [over] event fires ([resultQueue.abort()]). *)
Fixpoint release (fuel : nat) (st : St) : St :=
  match fuel with
  | O => st
  | S f =>
      match lookup_done (next st) (done_ st) with
      | None => st
      | Some r =>
          let st1 := mkSt (remove_done (next st) (done_ st)) (S (next st))
                          (total st) (buf st) (aborted st) (cons st)
                          (received st) (height st) in
          let st2 := push (next st, r) st1 in
          let st3 := if Nat.eqb (next st2) (total st2) then abort st2 else st2 in
          release f st3
      end
  end.

(** Modelled from the spec: task [i] of the queue finishes with result
    [r], in any order.  A task that is not running (already released,
    already finished, or out of range) cannot finish. *)
Definition complete (i : nat) (r : list Z) (st : St) : St :=
  if Nat.ltb i (next st) || Nat.leb (total st) i
     || match lookup_done i (done_ st) with Some _ => true | None => false end
  then st
  else
    let st1 := mkSt ((i, r) :: done_ st) (next st) (total st) (buf st)
                    (aborted st) (cons st) (received st) (height st) in
    release (S (length (done_ st1))) st1.

(** [node.processBlocks(blocks)]: each [processBlock] puts its block,
    which becomes the chain head. *)
Definition processBlocks (bs : list Z) (h : Z) : Z :=
  fold_left (fun _ b => b) bs h.

(** One turn of the consumer loop [for await (const result of
    resultQueue.generator()) await node.processBlocks(result)]: finish
    applying the current item, then read the next one. *)
Definition consume (st : St) : St :=
  match cons st with
  | Busy (_, bs) =>
      let h := processBlocks bs (height st) in
      if aborted st then
        mkSt (done_ st) (next st) (total st) (buf st) (aborted st)
             Finished (received st) h
      else match buf st with
           | it :: rest =>
               mkSt (done_ st) (next st) (total st) rest (aborted st)
                    (Busy it) (received st ++ [fst it]) h
           | [] =>
               mkSt (done_ st) (next st) (total st) [] (aborted st)
                    Waiting (received st) h
           end
  | _ => st
  end.

(** Scheduler events: a download finishing, or the consumer moving on. *)
Inductive event := Complete (i : nat) (r : list Z) | Consume.

Definition step (st : St) (e : event) : St :=
  match e with
  | Complete i r => complete i r st
  | Consume => consume st
  end.

Definition run (evs : list event) (st : St) : St := fold_left step evs st.

(** The blocks a well-behaved peer returns for a task. *)
Definition task_blocks (t : FullSync.Task) : list Z :=
  map (fun k => FullSync.start t + Z.of_nat k)
      (seq 0 (Z.to_nat (FullSync.count t))).

End Pipeline.

(** ** Worker (gxchain-core/src/miner/worker.ts) *)

Module Worker.

Record Tx := mkTx {
  tx_sender : string;
  tx_nonce : Z;
  tx_gasLimit : Z;
  tx_gasPrice : Z
}.

(** The header fields the worker reads or writes; hashes are 256-bit
    values as [Z]. *)
Record Header := mkHeader {
  h_number : Z;
  h_parentHash : Z;
  h_gasLimit : Z;
  h_timestamp : Z;
  h_transactionsTrie : Z
}.

Record Block := mkBlock {
  b_header : Header;
  b_transactions : list Tx
}.

(** Modelled from the spec: [PendingTxMap] of [@gxchain2/tx-pool]
    (spec 3 and 4.7), which is not among the sources.  One nonce-ordered
    queue per sender; [peek] gives the head of the sender whose head has
    the highest gas price (the first such sender on ties); [shift]
    advances that sender's queue; [pop] drops that sender's head and
    advances past the whole sender, removing its remaining
    transactions for the round. *)
Definition PendingTxMap := list (string * list Tx).

Fixpoint best (pm : PendingTxMap) : option (string * Tx) :=
  match pm with
  | [] => None
  | (s, txs) :: rest =>
      match txs with
      | [] => best rest
      | t :: _ =>
          match best rest with
          | Some (s', t') =>
              if tx_gasPrice t <? tx_gasPrice t' then Some (s', t')
              else Some (s, t)
          | None => Some (s, t)
          end
      end
  end.

Definition peek (pm : PendingTxMap) : option Tx := option_map snd (best pm).

Definition remove_sender (s : string) (pm : PendingTxMap) : PendingTxMap :=
  List.filter (fun e => negb (String.eqb (fst e) s)) pm.

Definition pop (pm : PendingTxMap) : PendingTxMap :=
  match best pm with
  | Some (s, _) => remove_sender s pm
  | None => pm
  end.

Definition shift (pm : PendingTxMap) : PendingTxMap :=
  match best pm with
  | Some (s, _) =>
      map (fun e => if String.eqb (fst e) s then (fst e, tl (snd e)) else e) pm
  | None => pm
  end.

Fixpoint size (pm : PendingTxMap) : nat :=
  match pm with
  | [] => O
  | (_, txs) :: rest => (length txs + size rest)%nat
  end.

Section worker.
(** The world state behind [wvm.vm.stateManager]. *)
Variable St : Type.

(** [vm.runTx({ tx, block, ... })] from a state: [inl (state, gasUsed)]
    when it returns, [inr state] with whatever partial changes it made
    when it throws. *)
Variable runTx : St -> Header -> Tx -> (St * Z) + St.

(** [calculateTransactionTrie(txs)]. *)
Variable calculateTransactionTrie : list Tx -> Z.

(** The checkpointing state manager: the current state and the stack
    of states saved by [checkpoint()]. *)
Record SM := mkSM { cur : St; stack : list St }.

Definition checkpoint (sm : SM) : SM := mkSM (cur sm) (cur sm :: stack sm).

Definition commit_sm (sm : SM) : SM := mkSM (cur sm) (tl (stack sm)).

Definition revert (sm : SM) : SM :=
  match stack sm with
  | s :: rest => mkSM s rest
  | [] => sm
  end.

Record W := mkW {
  sm : SM;
  txs : list Tx;
  header : Header;
  gasUsed : Z
}.

Inductive outcome := RunTxFailed | GasLimitExceeded | Included.

(** One record per loop iteration: the sender and transaction that
    [peek] gave, the state manager before [checkpoint()] and at the end
    of the iteration, and which branch was taken. *)
Record entry := mkEntry {
  e_sender : string;
  e_tx : Tx;
  e_before : SM;
  e_after : SM;
  e_outcome : outcome
}.

(** One iteration of the [while (tx)] loop of [commit(pendingMap)]
    ([checkpoint], [commit] and [revert] of the state manager are
    taken not to throw, so the outer [catch] is not reached). *)
Definition commit_iter (w : W) (pm : PendingTxMap)
    : option (W * PendingTxMap * entry) :=
  match best pm with
  | None => None
  | Some (s, tx) =>
      let sm1 := checkpoint (sm w) in
      match runTx (cur sm1) (header w) tx with
      | inr partial =>
          let sm2 := revert (mkSM partial (stack sm1)) in
          Some (mkW sm2 (txs w) (header w) (gasUsed w), pop pm,
                mkEntry s tx (sm w) sm2 RunTxFailed)
      | inl (st', g) =>
          let smr := mkSM st' (stack sm1) in
          if h_gasLimit (header w) <? g + gasUsed w then
            let sm2 := revert smr in
            Some (mkW sm2 (txs w) (header w) (gasUsed w), pop pm,
                  mkEntry s tx (sm w) sm2 GasLimitExceeded)
          else
            let sm2 := commit_sm smr in
            Some (mkW sm2 (txs w ++ [tx]) (header w) (gasUsed w + g),
                  shift pm, mkEntry s tx (sm w) sm2 Included)
      end
  end.

Fixpoint commit_loop (fuel : nat) (w : W) (pm : PendingTxMap)
    : W * PendingTxMap * list entry :=
  match fuel with
  | O => (w, pm, [])
  | S f =>
      match commit_iter w pm with
      | None => (w, pm, [])
      | Some (w1, pm1, e) =>
          let '(w2, pm2, es) := commit_loop f w1 pm1 in (w2, pm2, e :: es)
      end
  end.

(** Every iteration removes at least one transaction from the map. *)
Definition commit (w : W) (pm : PendingTxMap) : W * PendingTxMap * list entry :=
  commit_loop (S (size pm)) w pm.

(** [makeHeader(parentHash, number)] as far as the modelled fields go;
    when mining no [transactionsTrie] is given and the header's default
    is the empty-trie root, which is [calculateTransactionTrie([])]. *)
Definition makeHeader (gasLimit now parentHash number : Z) : Header :=
  mkHeader number parentHash gasLimit now (calculateTransactionTrie []).

(** [getPendingBlock(number?, hash?)]; [now] is
    [Math.floor(Date.now() / 1000)] and [gasLimit] the miner's. *)
Definition getPendingBlock (gasLimit now : Z) (w : W)
    (number hash : option Z) : Block :=
  let cached :=
    mkBlock (mkHeader (h_number (header w)) (h_parentHash (header w))
                      (h_gasLimit (header w)) now
                      (calculateTransactionTrie (txs w)))
            (txs w) in
  match number, hash with
  | Some n, Some h =>
      if negb (n + 1 =? h_number (header w))
         || negb (h =? h_parentHash (header w))
      then mkBlock (makeHeader gasLimit now h (n + 1)) []
      else cached
  | _, _ => cached
  end.
End worker.

End Worker.

(** ** Transaction journal (gxchain-tx-pool/src/jonunal.ts) *)

Module Journal.

(** A transaction is represented by its serialization [tx.serialize()];
    [Transaction.fromRlpSerializedTx] decodes it back. *)
Definition Tx := list Byte.byte.

(** [bufferSplit = Buffer.from('\r\n')] *)
Definition bufferSplit : list Byte.byte := [Byte.x0d; Byte.x0a].

(** [insert(tx)] appends [Buffer.concat([tx.serialize(), bufferSplit])]
    to the file. *)
Definition insert (file : list Byte.byte) (tx : Tx) : list Byte.byte :=
  file ++ tx ++ bufferSplit.

Definition write_all (txs : list Tx) : list Byte.byte :=
  fold_left insert txs [].

Fixpoint starts_with (pat l : list Byte.byte) : bool :=
  match pat, l with
  | [], _ => true
  | p :: ps, x :: xs => Byte.eqb p x && starts_with ps xs
  | _ :: _, [] => false
  end.

(** [buf.indexOf(pat)] for a non-empty pattern. *)
Fixpoint indexOf (pat l : list Byte.byte) : option nat :=
  if starts_with pat l then Some O
  else match l with
       | [] => None
       | _ :: xs => option_map S (indexOf pat xs)
       end.

(** The reader's variables: [bufferInput], [batch], and the list of the
    arrays passed to [add], as they were when [add] was called. *)
Record Reader := mkReader {
  bufferInput : list Byte.byte;
  batch : list Tx;
  adds : list (list Tx)
}.

(** The inner [while (true)] loop of the ['data'] handler; each turn
    consumes at least the two delimiter bytes, which bounds the fuel. *)
Fixpoint split_loop (fuel : nat) (r : Reader) : Reader :=
  match fuel with
  | O => r
  | S f =>
      match indexOf bufferSplit (bufferInput r) with
      | None => r
      | Some i =>
          let tx := firstn i (bufferInput r) in
          let b := batch r ++ [tx] in
          let rest := skipn (i + length bufferSplit) (bufferInput r) in
          if Nat.ltb 1024 (length b) then
            split_loop f (mkReader rest [] (adds r ++ [b]))
          else split_loop f (mkReader rest b (adds r))
      end
  end.

(** The ['data'] handler for one chunk: concatenate, split, then
    [if (batch.length > 0) add(batch)] (the batch is not reset). *)
Definition on_data (r : Reader) (chunk : list Byte.byte) : Reader :=
  let buf := bufferInput r ++ chunk in
  let r1 := split_loop (S (length buf)) (mkReader buf (batch r) (adds r)) in
  if Nat.ltb 0 (length (batch r1))
  then mkReader (bufferInput r1) (batch r1) (adds r1 ++ [batch r1])
  else r1.

(** [load(add)] on an existing file read as the given chunks: the
    successive arguments of [add]. *)
Definition load (chunks : list (list Byte.byte)) : list (list Tx) :=
  adds (fold_left on_data chunks (mkReader [] [] [])).

End Journal.

(** ** Node.addPendingTxs (gxchain-core/src/node.ts) *)

Module Node.

Inductive result (A : Type) := Ok (a : A) | Throw (e : string).
Arguments Ok {A} a.
Arguments Throw {A} e.

(** The settled state of a promise. *)
Inductive promise (A : Type) := Resolved (a : A) | Rejected (e : string).
Arguments Resolved {A} a.
Arguments Rejected {A} e.

Record Tx := mkTx { tx_id : Z }.

(** [Transaction | WrappedTransaction] *)
Inductive TxIn := Plain (t : Tx) | Wrapped (t : Tx).

Definition wrap (t : TxIn) : TxIn :=
  match t with Plain x => Wrapped x | w => w end.

Definition tx_of (t : TxIn) : Tx := match t with Plain x | Wrapped x => x end.

(** The collaborators the loop body calls, each of which may throw. *)
Record Env := mkEnv {
  (** [txPool.addTxs(wtxs)]: [{ results, readies }], with [readies] as
      the list of its per-sender arrays. *)
  addTxs : list TxIn -> result (list bool * list (list TxIn));
  (** [wtx.transaction.hash()] *)
  tx_hash : Tx -> result Z;
  (** [peer.announceTx(hashes)] for each peer of [peerpool.peers] *)
  peers : list (list Z -> result unit);
  (** [miner.worker.addTxs(readies)] *)
  worker_addTxs : list (list TxIn) -> result unit
}.

Fixpoint mapM {A B} (f : A -> result B) (l : list A) : result (list B) :=
  match l with
  | [] => Ok []
  | x :: xs =>
      match f x with
      | Throw e => Throw e
      | Ok y => match mapM f xs with Throw e => Throw e | Ok ys => Ok (y :: ys) end
      end
  end.

Fixpoint announce_all (ps : list (list Z -> result unit)) (hs : list Z)
    : result unit :=
  match ps with
  | [] => Ok tt
  | p :: rest => match p hs with Throw e => Throw e | Ok _ => announce_all rest hs end
  end.

(** The [try] block of one turn of [addPendingTxsLoop]. *)
Definition loop_try (env : Env) (txs : list TxIn) : result (list bool) :=
  match addTxs env (map wrap txs) with
  | Throw e => Throw e
  | Ok (results, readies) =>
      if Nat.ltb 0 (length readies) then
        match mapM (fun w => tx_hash env (tx_of w)) (concat readies) with
        | Throw e => Throw e
        | Ok hashes =>
            match announce_all (peers env) hashes with
            | Throw e => Throw e
            | Ok _ =>
                match worker_addTxs env readies with
                | Throw e => Throw e
                | Ok _ => Ok results
                end
            end
        end
      else Ok results
  end.

(** One turn of [addPendingTxsLoop]: the value given to [resolve]. *)
Definition loop_turn (env : Env) (txs : list TxIn) : list bool :=
  match loop_try env txs with
  | Ok results => results
  | Throw _ => repeat false (length txs)
  end.

(** [addPendingTxs(txs)]: await [initPromise] (the outcome of
    [init()]), push the request; the loop, which awaited the same
    [initPromise], takes it and resolves it. *)
Definition addPendingTxs (initPromise : result unit) (env : Env)
    (txs : list TxIn) : promise (list bool) :=
  match initPromise with
  | Throw e => Rejected e
  | Ok _ => Resolved (loop_turn env txs)
  end.

End Node.

(** ** Libp2pNode: peer table and event handlers
    (gxchain-network/src/p2p.ts and its later version, unnamed/part_001) *)

Module P2PPeers.

(** [Libp2pNode] with its [peers] map.  A [Peer] object is represented
    by the number of the [createPeer] call that made it, so that a peer
    object replaced in the map is told apart from its successor. *)
Record Libp2pNodeP := mkNodeP {
  node : P2P.Libp2pNode;
  peers : gmap string nat;
  created : nat
}.

(** [getPeer(peerId)] *)
Definition getPeer (n : Libp2pNodeP) (peerId : string) : option nat :=
  peers n !! peerId.

(** [createPeer(peerId)]: [new Peer(...)], then
    [this.peers.set(peer.peerId, peer)]. *)
Definition createPeer (n : Libp2pNodeP) (id : string) : Libp2pNodeP :=
  mkNodeP (node n) (<[id := created n]> (peers n)) (S (created n)).

(** The ['peer:discovery'] handler of [init()]:
    [if (this.peers.get(id) || this.isBanned(id)) return;], then
    [createPeer].  The protocols are then installed on the new [Peer]
    object; a failure there is caught and emitted, and the peer stays in
    the map. *)
Definition on_discovery (now : Z) (n : Libp2pNodeP) (id : string)
    : Libp2pNodeP :=
  match peers n !! id with
  | Some _ => n
  | None =>
      let '(b, nd) := P2P.isBanned now (node n) id in
      let n1 := mkNodeP nd (peers n) (created n) in
      if b then n1 else createPeer n1 id
  end.

(** The ['peer:connect'] handler: [createPeer(remotePeer)]. *)
Definition on_connect (n : Libp2pNodeP) (id : string) : Libp2pNodeP :=
  createPeer n id.

(** [abort()]: when started, each peer's [abort()] is called (the
    objects stay in the map), [stop()] is awaited and [started] becomes
    false. *)
Definition abort (n : Libp2pNodeP) : Libp2pNodeP :=
  if P2P.started (node n)
  then mkNodeP (P2P.mkNode false (P2P.banned (node n))) (peers n) (created n)
  else n.

(** Every [Peer] object in the map was made before the next one. *)
Definition wf (n : Libp2pNodeP) : Prop :=
  map_Forall (fun _ k => (k < created n)%nat) (peers n).

(** The protocol objects of unnamed/part_001. *)
Inductive Protocol := ETHProtocol.

Section protocols.
(** [constants.GXC2_ETHWIRE] of [@gxchain2/common]. *)
Variable GXC2_ETHWIRE : string.

(** [parseProtocol(name)] of unnamed/part_001. *)
Definition parseProtocol (name : string) : Node.result Protocol :=
  if String.eqb name GXC2_ETHWIRE then Node.Ok ETHProtocol
  else Node.Throw (String.append "Unkonw protocol: " name).

(** The constructor's
    [Array.from(options.protocols.values()).map((p) => parseProtocol(p))]:
    the first unknown name throws out of the constructor. *)
Definition construct_protocols (names : list string)
    : Node.result (list Protocol) :=
  Node.mapM parseProtocol names.
End protocols.

End P2PPeers.

(** ** Worker: assembling a new candidate block (gxchain-core/src/miner/worker.ts) *)

Module WorkerBlock.
Import Worker.

(** Whether a loop iteration took the [commit()] branch. *)
Definition included (o : outcome) : bool :=
  match o with Included => true | _ => false end.

Section newblock.
Variable St : Type.
Variable runTx : St -> Header -> Tx -> (St * Z) + St.
Variable calculateTransactionTrie : list Tx -> Z.

(** [_newBlock(block)] on a parent block with number [parentNumber],
    hash [parentHash] and the state [parentState] that
    [getWrappedVM(block.header.stateRoot)] opens, with the map [pm] that
    [txPool.getPendingMap] gives: [txs = []], [gasUsed = 0],
    [header = makeHeader(hash, number + 1)], a fresh state manager,
    [checkpoint()], then [commit(pm)].  The previous state manager, which
    is only reverted, is dropped; [makeHeader], [getWrappedVM] and
    [getPendingMap] are taken not to throw. *)
Definition _newBlock (gasLimit now parentNumber parentHash : Z)
    (parentState : St) (pm : PendingTxMap)
    : W St * PendingTxMap * list (entry St) :=
  let hd := makeHeader calculateTransactionTrie gasLimit now parentHash
                       (parentNumber + 1) in
  let w := mkW St (checkpoint St (mkSM St parentState [])) [] hd 0 in
  commit St runTx w pm.
End newblock.

End WorkerBlock.

(** ** Journal rotation (gxchain-tx-pool/src/jonunal.ts) *)

Module JournalRotate.
Import Journal.

(** [rotate(all)] with [all] the pool's map from sender to
    transactions, in iteration order, and [writes] the outcomes of the
    [output.write] callbacks ([true]: no error).  A failed write rejects
    [Promise.all], and [rotate] returns before the rename, leaving the
    journal as it was.  Otherwise the [.new] file, which holds each
    transaction followed by [bufferSplit], replaces the journal; the
    second component is then [journaled]. *)
Definition rotate (file : list Byte.byte) (all : list (list Byte.byte * list Tx))
    (writes : list bool) : list Byte.byte * option nat :=
  let journaled := fold_left (fun j kv => (j + length (snd kv))%nat) all O in
  if forallb (fun ok => ok) writes
  then (write_all (concat (map snd all)), Some journaled)
  else (file, None).

End JournalRotate.

(** ** Node.processBlocks (gxchain-core/src/node.ts) *)

Module NodeBlocks.

Section blocks.
Variables (S B : Type).

(** [processBlock(block)] from a node state: the state afterwards and,
    if it threw, the error; the writes made before a throw (for
    instance [putBlock] before [saveTxLookup]) are in the state. *)
Variable processBlock : S -> B -> S * option string.

(** [processBlocks(blocks)]: [for (const block of blocks) await
    this.processBlock(block);] *)
Fixpoint processBlocks (s : S) (blocks : list B) : S * option string :=
  match blocks with
  | [] => (s, None)
  | b :: rest =>
      let '(s1, r) := processBlock s b in
      match r with
      | Some e => (s1, Some e)
      | None => processBlocks s1 rest
      end
  end.
End blocks.

End NodeBlocks.

(** * Properties *)

(** ** Ban table *)

(** C8 (counterexample).  A second [ban] with a shorter [maxAge] replaces
    the expiry: a peer banned at time 1000 for 300000 ms and banned again
    at time 2000 for 60000 ms is reported as not banned at time 100000,
    before the first expiry 301000 has elapsed. *)
Lemma ban_shorter_reban_ends_early :
  let n0 := P2P.mkNode true ∅ in
  let n1 := snd (P2P.ban 1000 n0 "p" (Some 300000)) in
  let n2 := snd (P2P.ban 2000 n1 "p" (Some 60000)) in
  P2P.banned n1 !! "p" = Some 301000 /\
  fst (P2P.isBanned 100000 n2 "p") = false /\ 100000 < 301000.
Proof. vm_compute. repeat split; reflexivity. Qed.

(** C8 (amended).  On a started node, banning an already-banned peer
    returns [true] and sets its expiry to [now + maxAge], replacing the
    previous one; [isBanned] stays true until that expiry, so it is true
    until the previous expiry whenever [now + maxAge] is at least the
    previous expiry; once the expiry has elapsed, the first [isBanned]
    returns false and removes the entry, and later queries return false. *)
Theorem ban_reban_expiry (n : P2P.Libp2pNode) (p : string)
    (now maxAge old : Z)
    (Hstarted : P2P.started n = true)
    (Hbanned : P2P.banned n !! p = Some old)
    (Hnow : 0 < now) (Hage : 0 <= maxAge) :
  let r := P2P.ban now n p (Some maxAge) in
  let n' := snd r in
  fst r = true /\
  P2P.banned n' !! p = Some (now + maxAge) /\
  (forall t, t < now + maxAge -> P2P.isBanned t n' p = (true, n')) /\
  (old <= now + maxAge -> forall t, t < old -> fst (P2P.isBanned t n' p) = true) /\
  (forall t, now + maxAge <= t ->
     fst (P2P.isBanned t n' p) = false /\
     P2P.banned (snd (P2P.isBanned t n' p)) !! p = None /\
     forall t', fst (P2P.isBanned t' (snd (P2P.isBanned t n' p)) p) = false).
Proof.
  destruct n as [st bn]; simpl in *; subst st; simpl.
  assert (Hl : <[p:=now + maxAge]> bn !! p = Some (now + maxAge))
    by apply lookup_insert_eq.
  assert (Hnz : (now + maxAge =? 0) = false) by (apply Z.eqb_neq; lia).
  split; [reflexivity|]. split; [exact Hl|].
  split; [|split].
  - intros t Ht. unfold P2P.isBanned; simpl. rewrite Hl, Hnz.
    replace (t <? now + maxAge) with true by (symmetry; apply Z.ltb_lt; lia).
    reflexivity.
  - intros Hle t Ht. unfold P2P.isBanned; simpl. rewrite Hl, Hnz.
    replace (t <? now + maxAge) with true by (symmetry; apply Z.ltb_lt; lia).
    reflexivity.
  - intros t Ht. unfold P2P.isBanned; simpl. rewrite Hl, Hnz.
    replace (t <? now + maxAge) with false by (symmetry; apply Z.ltb_ge; lia).
    simpl. split; [reflexivity|].
    simpl. rewrite lookup_delete_eq. split; [reflexivity|].
    intros _. reflexivity.
Qed.

Lemma ban_reban_expiry_witness :
  let n := P2P.mkNode true {[ "p" := 5000 ]} in
  P2P.started n = true /\ P2P.banned n !! "p" = Some 5000 /\
  let n' := snd (P2P.ban 1000 n "p" (Some 60000)) in
  fst (P2P.isBanned 3000 n' "p") = true /\
  fst (P2P.isBanned 61000 n' "p") = false.
Proof.
  intros n.
  destruct (ban_reban_expiry n "p" 1000 60000 5000 eq_refl eq_refl
              ltac:(lia) ltac:(lia)) as (_ & _ & H1 & _ & H3).
  split; [reflexivity|]. split; [reflexivity|].
  split.
  - rewrite (H1 3000 ltac:(lia)). reflexivity.
  - exact (proj1 (H3 61000 ltac:(lia))).
Defined.

(** ** Ordered delivery of the sync pipeline *)

Module PipelineFacts.
Import Pipeline.

(** The consumer has read a prefix of the released indices, in release
    order; while the channel is not aborted, read and buffered items
    together are exactly the released ones; a waiting consumer has an
    empty buffer. *)
Definition Inv_at (k : nat) (st : St) : Prop :=
  (cons st = Waiting -> buf st = []) /\
  (exists suf, received st ++ map fst (buf st) ++ suf = seq 0 k) /\
  (aborted st = false -> received st ++ map fst (buf st) = seq 0 k).

Definition Inv (st : St) : Prop := Inv_at (next st) st.

Lemma prefix_seq (l suf : list nat) (a n : nat) :
  l ++ suf = seq a n -> l = seq a (length l).
Proof.
  revert a n. induction l as [|x l IH]; intros a n H; [reflexivity|].
  destruct n as [|n]; simpl in H; [discriminate H|].
  injection H as -> H. simpl. f_equal. exact (IH _ _ H).
Qed.

Lemma push_inv (n : nat) (r : list Z) (st : St) :
  Inv_at n st -> Inv_at (S n) (push (n, r) st).
Proof.
  intros (Hw & (suf & Hp) & Hx). unfold Inv_at. rewrite seq_S. simpl.
  unfold push. destruct (aborted st) eqn:Ha.
  - split; [exact Hw|]. split; [|intro; congruence].
    exists (suf ++ [n]). rewrite <- Hp. rewrite !app_assoc. reflexivity.
  - specialize (Hx eq_refl).
    destruct (cons st) as [| it |] eqn:Hc; simpl.
    + rewrite (Hw eq_refl) in *. simpl in *. rewrite app_nil_r in Hx.
      split; [intro; congruence|]. split.
      * exists []. rewrite !app_nil_r. rewrite Hx. reflexivity.
      * intros _. rewrite app_nil_r, Hx. reflexivity.
    + split; [intro; congruence|]. rewrite map_app. simpl. split.
      * exists []. rewrite <- Hx, ?app_nil_r. repeat rewrite <- app_assoc.
        reflexivity.
      * intros _. rewrite <- Hx. repeat rewrite <- app_assoc. reflexivity.
    + split; [intro; congruence|]. rewrite map_app. simpl. split.
      * exists []. rewrite <- Hx, ?app_nil_r. repeat rewrite <- app_assoc.
        reflexivity.
      * intros _. rewrite <- Hx. repeat rewrite <- app_assoc. reflexivity.
Qed.

Lemma abort_inv (k : nat) (st : St) : Inv_at k st -> Inv_at k (abort st).
Proof.
  intros (Hw & Hp & _). unfold abort, Inv_at; simpl.
  split; [|split; [exact Hp | intro; congruence]].
  destruct (cons st); intro; congruence.
Qed.

Lemma release_inv (fuel : nat) (st : St) : Inv st -> Inv (release fuel st).
Proof.
  revert st. induction fuel as [|f IH]; intros st H; simpl; [exact H|].
  destruct (lookup_done (next st) (done_ st)) as [r|]; [|exact H].
  apply IH.
  set (st1 := mkSt _ _ _ _ _ _ _ _).
  assert (H2 : Inv_at (S (next st)) (push (next st, r) st1))
    by (apply push_inv; exact H).
  assert (Hn : next (push (next st, r) st1) = S (next st))
    by (unfold push; destruct (aborted st1), (cons st1); reflexivity).
  destruct (Nat.eqb _ _); unfold Inv.
  - unfold abort at 1; simpl. rewrite Hn. apply abort_inv. exact H2.
  - rewrite Hn. exact H2.
Qed.

Lemma complete_inv (i : nat) (r : list Z) (st : St) :
  Inv st -> Inv (complete i r st).
Proof.
  intros H. unfold complete.
  destruct (_ || _ || _); [exact H|].
  apply release_inv. exact H.
Qed.

Lemma consume_inv (st : St) : Inv st -> Inv (consume st).
Proof.
  intros HI. unfold consume.
  destruct (cons st) as [| [i bs] |] eqn:Hc; try exact HI.
  destruct HI as (Hw & (suf & Hp) & Hx).
  destruct (aborted st) eqn:Ha.
  - unfold Inv, Inv_at; simpl. split; [intro; congruence|].
    split; [exists suf; exact Hp | intro; congruence].
  - destruct (buf st) as [|it rest] eqn:Hb; unfold Inv, Inv_at; simpl.
    + split; [reflexivity|]. split; [exists suf; exact Hp | exact Hx].
    + split; [intro; congruence|].
      split; [exists suf | intros _]; rewrite <- app_assoc; simpl.
      * exact Hp.
      * exact (Hx eq_refl).
Qed.

Lemma run_inv (evs : list event) (st : St) : Inv st -> Inv (run evs st).
Proof.
  unfold run. revert st. induction evs as [|e evs IH]; intros st H;
    simpl; [exact H|].
  apply IH. destruct e; simpl; [apply complete_inv | apply consume_inv];
    exact H.
Qed.

Lemma init_inv (total latestHeight : Z) : Inv (init total latestHeight).
Proof.
  unfold Inv, Inv_at; simpl. split; [reflexivity|].
  split; [exists []; reflexivity | reflexivity].
Qed.

End PipelineFacts.

(** C1.  Whatever the order in which the download tasks finish and
    however the consumer interleaves with them, the indices of the results
    the consumer of [sync] has read are exactly [0, 1, ..., k-1] in this
    order: strictly increasing, and result [i+1] is never read before
    result [i]. *)
Theorem consumer_reads_in_index_order (total latestHeight : Z)
    (evs : list Pipeline.event) :
  exists k, Pipeline.received (Pipeline.run evs (Pipeline.init total latestHeight))
            = seq 0 k.
Proof.
  destruct (PipelineFacts.run_inv evs _ (PipelineFacts.init_inv total latestHeight))
    as (_ & (suf & Hp) & _).
  rewrite app_assoc in Hp.
  exists (length (Pipeline.received (Pipeline.run evs (Pipeline.init total latestHeight)))).
  rewrite <- app_assoc in Hp. exact (PipelineFacts.prefix_seq _ _ _ _ Hp).
Qed.

(** ** Result of [sync] *)

Module SyncFacts.
Import FullSync.

Lemma find_best_height (b : option string) (bh : Z) (peers : list (string * Z)) :
  snd (find_best b bh peers) = fold_left Z.max (map snd peers) bh.
Proof.
  revert b bh. induction peers as [|[p h] rest IH]; intros b bh; simpl;
    [reflexivity|].
  destruct (bh <? h) eqn:E; rewrite IH; f_equal.
  - apply Z.ltb_lt in E. lia.
  - apply Z.ltb_ge in E. lia.
Qed.

Lemma find_best_none (b : option string) (bh : Z) (peers : list (string * Z)) :
  (forall p h, In (p, h) peers -> h <= bh) -> fst (find_best b bh peers) = b.
Proof.
  revert b bh. induction peers as [|[p h] rest IH]; intros b bh Hall;
    simpl; [reflexivity|].
  destruct (bh <? h) eqn:E.
  - apply Z.ltb_lt in E. specialize (Hall p h (or_introl eq_refl)). lia.
  - apply IH. intros p' h' Hin. exact (Hall p' h' (or_intror Hin)).
Qed.

Lemma find_best_stays (p : string) (bh : Z) (peers : list (string * Z)) :
  exists p', fst (find_best (Some p) bh peers) = Some p'.
Proof.
  revert p bh. induction peers as [|[q h] rest IH]; intros p bh; simpl.
  - exists p. reflexivity.
  - destruct (bh <? h); apply IH.
Qed.

Lemma find_best_some (b : option string) (bh : Z) (peers : list (string * Z)) :
  (exists p h, In (p, h) peers /\ bh < h) ->
  exists p, fst (find_best b bh peers) = Some p.
Proof.
  revert b bh. induction peers as [|[q h] rest IH]; intros b bh Hex; simpl.
  - destruct Hex as (? & ? & [] & _).
  - destruct (bh <? h) eqn:E; [apply find_best_stays|].
    apply IH. destruct Hex as (p' & h' & [Heq|Hin] & Hlt).
    + injection Heq as -> ->. apply Z.ltb_ge in E. lia.
    + exists p', h'. split; assumption.
Qed.

Lemma find_best_found (b : option string) (bh : Z)
    (peers : list (string * Z)) (p : string) :
  fst (find_best b bh peers) = Some p ->
  b = Some p \/ exists q h, In (q, h) peers /\ bh < h.
Proof.
  revert b bh. induction peers as [|[q h] rest IH]; intros b bh H; simpl in H.
  - left. exact H.
  - destruct (bh <? h) eqn:E.
    + right. exists q, h. split; [left; reflexivity | apply Z.ltb_lt; exact E].
    + destruct (IH b bh H) as [Hb|(q' & h' & Hin & Hlt)]; [left; exact Hb|].
      right. exists q', h'. split; [right; exact Hin | exact Hlt].
Qed.

End SyncFacts.

(** C2 (counterexample).  With no installed peer ahead of the local
    height 10, nothing fails, the local height stays equal to
    [bestHeight] (10), and yet [sync] returns [false]: the producer only
    resolves [true] when a best peer was found. *)
Lemma sync_no_best_peer_returns_false :
  let s := FullSync.construct (FullSync.mkOptions None None None None) in
  snd (fst (FullSync.producer s 10 [("a", 10)] FullSync.Ok)) = 10 /\
  FullSync.sync false s 10 [("a", 10)] FullSync.Ok FullSync.Ok 10
  = FullSync.Returns false.
Proof. split; reflexivity. Qed.

(** C2 (amended).  A [sync] call made while not syncing returns [true] iff
    some installed peer advertises a height above the local height, the
    producer (task scheduling over the download queue) and the consumer
    (block application) both complete without error, and the local height
    at the end equals [bestHeight], the highest height observed at the
    start; so any final height other than [bestHeight] gives [false], and
    with no peer ahead the result is [false] although nothing failed.  A
    call made while already syncing throws. *)
Theorem sync_result_iff (s : FullSync.FullSynchronizer) (latestHeight : Z)
    (peers : list (string * Z)) (start_res cons_res : FullSync.outcome)
    (finalHeight : Z) :
  (FullSync.sync false s latestHeight peers start_res cons_res finalHeight
     = FullSync.Returns true <->
   (exists p h, In (p, h) peers /\ latestHeight < h) /\
   start_res = FullSync.Ok /\ cons_res = FullSync.Ok /\
   finalHeight = fold_left Z.max (map snd peers) latestHeight) /\
  FullSync.sync true s latestHeight peers start_res cons_res finalHeight
  = FullSync.Throws.
Proof.
  split; [|reflexivity].
  unfold FullSync.sync, FullSync.producer.
  pose proof (SyncFacts.find_best_height None latestHeight peers) as Hh.
  destruct (FullSync.find_best None latestHeight peers) as [best bh] eqn:Eb.
  simpl in Hh. subst bh.
  destruct best as [p|]; unfold FullSync.sync_return; simpl.
  - split.
    + intros H. injection H as H.
      destruct start_res, cons_res; simpl in H; try discriminate H.
      apply Z.eqb_eq in H.
      split; [|split; [reflexivity|split; [reflexivity|lia]]].
      destruct (SyncFacts.find_best_found None latestHeight peers p)
        as [Hn|Hex]; [rewrite Eb; reflexivity | discriminate Hn | exact Hex].
    + intros (_ & -> & -> & ->). simpl. rewrite Z.eqb_refl. reflexivity.
  - split.
    + intros H. discriminate H.
    + intros (Hex & _).
      destruct (SyncFacts.find_best_some None latestHeight peers Hex) as [p Hp].
      rewrite Eb in Hp. discriminate Hp.
Qed.

(** ** Task partition and the sync scenario *)

Module ScheduleFacts.
Import FullSync.

Lemma ceil_div_pos (t c : Z) : 1 <= c -> 1 <= t -> 1 <= (t + c - 1) / c.
Proof. intros Hc Ht. apply Z.div_le_lower_bound; lia. Qed.

Lemma ceil_div_nonpos (t c : Z) : 1 <= c -> t <= 0 -> (t + c - 1) / c <= 0.
Proof.
  intros Hc Ht. destruct (Z.eq_dec (t + c - 1) 0) as [E|E].
  - rewrite E. reflexivity.
  - destruct (Z_lt_le_dec (t + c - 1) 0).
    + apply Z.lt_le_incl, Z.div_lt_upper_bound; lia.
    + rewrite Z.div_small; lia.
Qed.

Lemma ceil_div_step (t c : Z) : 1 <= c -> 1 <= t ->
  (t + c - 1) / c = (t - c + c - 1) / c + 1.
Proof.
  intros Hc Ht.
  replace (t + c - 1) with ((t - c + c - 1) + 1 * c) by ring.
  rewrite Z.div_add; lia.
Qed.

(** The task loop inserts task [k] at [(taskCount + k) * count +
    latestHeight + 1] with [min(count, totalCount - k * count)] blocks,
    for [k] below [ceil(totalCount / count)]. *)
Lemma task_loop_spec (fuel : nat) (count L tc tot : Z) :
  1 <= count ->
  (Z.to_nat ((tot + count - 1) / count) <= fuel)%nat ->
  task_loop fuel count L tc tot =
  map (fun k : nat => mkTask ((tc + Z.of_nat k) * count + L + 1)
                             (Z.min count (tot - Z.of_nat k * count)))
      (seq 0 (Z.to_nat ((tot + count - 1) / count))).
Proof.
  intros Hc. revert tc tot. induction fuel as [|f IH]; intros tc tot Hf; simpl.
  - destruct (Z_le_dec tot 0) as [Hle|Hgt].
    + pose proof (ceil_div_nonpos tot count Hc Hle).
      replace (Z.to_nat ((tot + count - 1) / count)) with O by lia.
      reflexivity.
    + pose proof (ceil_div_pos tot count Hc ltac:(lia)). lia.
  - destruct (0 <? tot) eqn:Et.
    + apply Z.ltb_lt in Et.
      pose proof (ceil_div_step tot count Hc ltac:(lia)) as Hs.
      assert (H0 : 0 <= (tot - count + count - 1) / count)
        by (apply Z.div_pos; lia).
      assert (Hn : Z.to_nat ((tot + count - 1) / count)
                   = S (Z.to_nat ((tot - count + count - 1) / count)))
        by (rewrite Hs; lia).
      rewrite Hn in Hf |- *.
      simpl. f_equal.
      * f_equal; [ring|].
        destruct (count <? tot) eqn:E.
        -- apply Z.ltb_lt in E. lia.
        -- apply Z.ltb_ge in E. lia.
      * rewrite IH by (apply le_S_n; exact Hf).
        rewrite <- seq_shift, map_map.
        apply map_ext. intros k. rewrite Nat2Z.inj_succ. f_equal; [ring | f_equal; ring].
    + apply Z.ltb_ge in Et.
      pose proof (ceil_div_nonpos tot count Hc Et).
      replace (Z.to_nat ((tot + count - 1) / count)) with O by lia.
      reflexivity.
Qed.

End ScheduleFacts.

(** For local height [L], best height [B] and [count >= 1], [sync]
    inserts [ceil((B - L) / count)] tasks, task [k] starting at
    [k * count + L + 1] with [min(count, (B - L) - k * count)] blocks: a
    partition of [(L, B]] in order. *)
Lemma schedule_tasks_partition (count L B : Z) :
  1 <= count ->
  FullSync.schedule_tasks count L B =
  map (fun k : nat => FullSync.mkTask (Z.of_nat k * count + L + 1)
                                      (Z.min count (B - L - Z.of_nat k * count)))
      (seq 0 (Z.to_nat ((B - L + count - 1) / count))).
Proof.
  intros Hc. unfold FullSync.schedule_tasks.
  assert (Hb : (Z.to_nat ((B - L + count - 1) / count) <= Z.to_nat (B - L))%nat).
  { destruct (Z_le_dec (B - L) 0) as [Hle|Hgt].
    - pose proof (ScheduleFacts.ceil_div_nonpos (B - L) count Hc Hle). lia.
    - assert ((B - L + count - 1) / count <= B - L)
        by (apply Z.div_le_upper_bound; nia).
      lia. }
  rewrite (ScheduleFacts.task_loop_spec _ count L 0 (B - L) Hc Hb).
  apply map_ext. intros k. f_equal.
Qed.

Lemma schedule_tasks_partition_witness :
  FullSync.schedule_tasks 5 10 23 =
  [FullSync.mkTask 11 5; FullSync.mkTask 16 5; FullSync.mkTask 21 3].
Proof.
  rewrite (schedule_tasks_partition 5 10 23 ltac:(lia)). reflexivity.
Defined.

(** C3 (failing input).  Local height 10, one peer at height 20,
    [count = 5], [limit = 2]: the producer inserts exactly the tasks
    [{start: 11, count: 5}] and [{start: 16, count: 5}].  If the second
    download finishes while the consumer is still applying blocks 11-15,
    the queue's [over] event aborts [resultQueue] with blocks 16-20 still
    buffered; the consumer stops after block 15 and [sync] returns
    [false]. *)
Theorem sync_scenario_second_batch_lost :
  let s := FullSync.construct (FullSync.mkOptions (Some 2) (Some 5) None None) in
  let '(r1, bestHeight, tasks) := FullSync.producer s 10 [("peer", 20)] FullSync.Ok in
  tasks = [FullSync.mkTask 11 5; FullSync.mkTask 16 5] /\
  r1 = true /\ bestHeight = 20 /\
  let evs := [Pipeline.Complete 0 (Pipeline.task_blocks (FullSync.mkTask 11 5));
              Pipeline.Complete 1 (Pipeline.task_blocks (FullSync.mkTask 16 5));
              Pipeline.Consume; Pipeline.Consume] in
  let st := Pipeline.run evs (Pipeline.init 2 10) in
  Pipeline.received st = [0%nat] /\ Pipeline.height st = 15 /\
  Pipeline.cons st = Pipeline.Finished /\
  FullSync.sync false s 10 [("peer", 20)] FullSync.Ok FullSync.Ok
                (Pipeline.height st) = FullSync.Returns false.
Proof. vm_compute. repeat split. Qed.

(** In the same scenario, a consumer that has applied blocks 11-15 before
    the second download finishes applies 16-20 as well and [sync]
    returns [true] with height 20. *)
Example sync_scenario_consumer_keeps_up :
  let s := FullSync.construct (FullSync.mkOptions (Some 2) (Some 5) None None) in
  let evs := [Pipeline.Complete 0 (Pipeline.task_blocks (FullSync.mkTask 11 5));
              Pipeline.Consume;
              Pipeline.Complete 1 (Pipeline.task_blocks (FullSync.mkTask 16 5));
              Pipeline.Consume] in
  let st := Pipeline.run evs (Pipeline.init 2 10) in
  Pipeline.received st = [0%nat; 1%nat] /\ Pipeline.height st = 20 /\
  FullSync.sync false s 10 [("peer", 20)] FullSync.Ok FullSync.Ok
                (Pipeline.height st) = FullSync.Returns true.
Proof. vm_compute. repeat split. Qed.

(** ** [download] releases and bans the peer *)

(** C4.  In every run of [download(task)] that acquired a peer [p], [p]
    is marked idle again whether the request succeeds or fails.  When the
    request fails with [PeerRequestTimeoutError], [p] is banned for
    [timeoutBanTime]; with any other error, for [errorBanTime]; in both
    cases the error is re-thrown.  A successful request bans nobody
    (building the blocks may still throw, which is handled as another
    error).  Without options the ban times are 300000 ms and 60000 ms. *)
Theorem download_releases_peer (fromBlockData : Z -> option Z)
    (o : FullSync.FullSynchronizerOptions) (st : Download.Pool) (p : string)
    (req : Download.request_result) :
  let s := FullSync.construct o in
  let '(st', r) := Download.download fromBlockData s st (Some p) req in
  Download.idle st' !! p = Some true /\
  match req with
  | Download.Fails e =>
      r = Download.Throws e /\
      Download.bans st' =
        Download.bans st ++
        [(p, match e with
             | Download.PeerRequestTimeoutError => FullSync.timeoutBanTime s
             | _ => FullSync.errorBanTime s
             end)]
  | Download.Headers hs =>
      match Download.build_blocks fromBlockData hs with
      | Some bs => r = Download.Returns bs /\ Download.bans st' = Download.bans st
      | None =>
          r = Download.Throws Download.OtherError /\
          Download.bans st' = Download.bans st ++ [(p, FullSync.errorBanTime s)]
      end
  end /\
  FullSync.timeoutBanTime (FullSync.construct (FullSync.mkOptions
     (FullSync.opt_limit o) (FullSync.opt_count o) None (FullSync.opt_errorBanTime o)))
  = 300000 /\
  FullSync.errorBanTime (FullSync.construct (FullSync.mkOptions
     (FullSync.opt_limit o) (FullSync.opt_count o) (FullSync.opt_timeoutBanTime o) None))
  = 60000.
Proof.
  simpl. destruct req as [hs|e]; simpl.
  - destruct (Download.build_blocks fromBlockData hs) as [bs|]; simpl.
    + rewrite insert_insert_eq, lookup_insert_eq.
      repeat split.
    + rewrite insert_insert_eq, lookup_insert_eq.
      repeat split.
  - destruct e; simpl; rewrite insert_insert_eq, lookup_insert_eq; repeat split.
Qed.

(** ** Worker commit loop *)

Module WorkerFacts.
Import Worker.

Lemma best_key (pm : PendingTxMap) (s : string) (tx : Tx) :
  best pm = Some (s, tx) -> In s (map fst pm).
Proof.
  induction pm as [|[s' txs] rest IH]; simpl; [discriminate|].
  destruct txs as [|t ts].
  - intros H. right. exact (IH H).
  - destruct (best rest) as [[s2 t2]|] eqn:Eb.
    + destruct (tx_gasPrice t <? tx_gasPrice t2); intros H;
        injection H as -> ->; [right; apply IH; reflexivity | left; reflexivity].
    + intros H. injection H as -> ->. left. reflexivity.
Qed.

Lemma remove_sender_keys (s : string) (pm : PendingTxMap) :
  ~ In s (map fst (remove_sender s pm)) /\
  incl (map fst (remove_sender s pm)) (map fst pm).
Proof.
  unfold remove_sender. induction pm as [|[s' txs] rest [IH1 IH2]]; simpl.
  - split; [intros []|apply incl_refl].
  - destruct (String.eqb s' s) eqn:E; simpl.
    + split; [exact IH1|]. apply incl_tl. exact IH2.
    + apply String.eqb_neq in E. split.
      * intros [H|H]; [exact (E H) | exact (IH1 H)].
      * apply incl_cons; [left; reflexivity | apply incl_tl; exact IH2].
Qed.

Lemma pop_keys (pm : PendingTxMap) : incl (map fst (pop pm)) (map fst pm).
Proof.
  unfold pop. destruct (best pm) as [[s _]|]; [|apply incl_refl].
  apply remove_sender_keys.
Qed.

Lemma shift_keys (pm : PendingTxMap) : map fst (shift pm) = map fst pm.
Proof.
  unfold shift. destruct (best pm) as [[s _]|]; [|reflexivity].
  rewrite map_map. apply map_ext. intros [s' l]. simpl.
  destruct (String.eqb s' s); reflexivity.
Qed.

Section loop.
Variable St : Type.
Variable runTx : St -> Header -> Tx -> (St * Z) + St.

Lemma sm_eta (m : SM St) : mkSM St (cur St m) (stack St m) = m.
Proof. destruct m; reflexivity. Qed.

Lemma commit_iter_keys (w w1 : W St) (pm pm1 : PendingTxMap) (e : entry St) :
  commit_iter St runTx w pm = Some (w1, pm1, e) ->
  In (e_sender St e) (map fst pm) /\ incl (map fst pm1) (map fst pm).
Proof.
  unfold commit_iter.
  destruct (best pm) as [[s tx]|] eqn:Eb; [|discriminate].
  pose proof (best_key pm s tx Eb) as Hk.
  destruct (runTx _ _ _) as [[st' g]|partial];
    [destruct (h_gasLimit (header St w) <? g + gasUsed St w)|];
    intros H; injection H as <- <- <-; simpl;
    (split; [exact Hk|]);
    first [apply pop_keys | rewrite shift_keys; apply incl_refl].
Qed.

(** Both reverting branches leave the state manager as it was before
    the iteration's [checkpoint()]. *)
Lemma commit_iter_reverted (w w1 : W St) (pm pm1 : PendingTxMap)
    (e : entry St) :
  commit_iter St runTx w pm = Some (w1, pm1, e) ->
  e_outcome St e <> Included ->
  e_after St e = e_before St e /\ e_before St e = sm St w /\
  w1 = w /\ pm1 = pop pm.
Proof.
  unfold commit_iter.
  destruct (best pm) as [[s tx]|] eqn:Eb; [|discriminate].
  destruct (runTx _ _ _) as [[st' g]|partial];
    [destruct (h_gasLimit (header St w) <? g + gasUsed St w)|];
    intros H; injection H as <- <- <-; simpl; intros Hn;
    try (exfalso; apply Hn; reflexivity);
    unfold revert; simpl; rewrite sm_eta;
    (split; [reflexivity | split; [reflexivity | split; [|reflexivity]]]);
    destruct w; reflexivity.
Qed.

Lemma commit_loop_senders (fuel : nat) (w : W St) (pm : PendingTxMap) :
  Forall (fun e => In (e_sender St e) (map fst pm))
         (snd (commit_loop St runTx fuel w pm)).
Proof.
  revert w pm. induction fuel as [|f IH]; intros w pm; simpl; [constructor|].
  destruct (commit_iter St runTx w pm) as [[[w1 pm1] e]|] eqn:Ei;
    [|constructor].
  destruct (commit_iter_keys w w1 pm pm1 e Ei) as [Hk Hi].
  specialize (IH w1 pm1).
  destruct (commit_loop St runTx f w1 pm1) as [[w2 pm2] es]. simpl in *.
  constructor; [exact Hk|].
  eapply Forall_impl; [exact IH|]. intros e' He'. apply Hi. exact He'.
Qed.

Lemma commit_loop_reverted (fuel : nat) (w : W St) (pm : PendingTxMap)
    (e : entry St) :
  In e (snd (commit_loop St runTx fuel w pm)) ->
  e_outcome St e <> Included -> e_after St e = e_before St e.
Proof.
  revert w pm. induction fuel as [|f IH]; intros w pm; simpl; [intros []|].
  destruct (commit_iter St runTx w pm) as [[[w1 pm1] e1]|] eqn:Ei;
    [|intros []].
  specialize (IH w1 pm1).
  destruct (commit_loop St runTx f w1 pm1) as [[w2 pm2] es]. simpl in *.
  intros [<-|Hin] Hn.
  - exact (proj1 (commit_iter_reverted w w1 pm pm1 e1 Ei Hn)).
  - exact (IH Hin Hn).
Qed.
End loop.

End WorkerFacts.

(** C5 (counterexample).  Sender A has a 100-gas transaction followed by
    a 10-gas one and the block gas limit is 50.  The first exceeds the
    limit, [pendingMap.pop()] drops sender A for the round, and the 10-gas
    transaction, which would fit, is never tried: the loop ends with no
    transaction included. *)
Lemma gas_limit_skips_smaller_tx_of_sender :
  let tx0 := Worker.mkTx "A" 0 100 5 in
  let tx1 := Worker.mkTx "A" 1 10 5 in
  let runTx := fun (s : Z) (_ : Worker.Header) (t : Worker.Tx) =>
                 @inl (Z * Z) Z (s, Worker.tx_gasLimit t) in
  let w := Worker.mkW Z (Worker.mkSM Z 0 [0]) [] (Worker.mkHeader 1 0 50 0 0) 0 in
  let '(w', _, es) := Worker.commit Z runTx w [("A", [tx0; tx1])] in
  map (Worker.e_tx Z) es = [tx0] /\ Worker.txs Z w' = [] /\
  Worker.tx_gasLimit tx1 <= 50.
Proof. vm_compute. repeat split; discriminate. Qed.

(** C5 (amended).  When the peeked transaction of sender [s] runs but
    would take the cumulative gas above the header's gas limit, the
    checkpoint is reverted and [pendingMap.pop()] is called, as on an
    execution failure: the worker (state, included transactions, gas used)
    is left as before, sender [s]'s remaining transactions are dropped for
    the round and none of them is tried again, while the queues of the
    other senders stay in the map. *)
Theorem gas_limit_drops_sender (St : Type)
    (runTx : St -> Worker.Header -> Worker.Tx -> (St * Z) + St)
    (fuel : nat) (w : Worker.W St) (pm : Worker.PendingTxMap)
    (s : string) (tx : Worker.Tx) (st' : St) (g : Z)
    (Hb : Worker.best pm = Some (s, tx))
    (Hr : runTx (Worker.cur St (Worker.sm St w)) (Worker.header St w) tx = inl (st', g))
    (Hg : Worker.h_gasLimit (Worker.header St w) < g + Worker.gasUsed St w) :
  Worker.commit_loop St runTx (S fuel) w pm =
    (let '(w2, pm2, es) := Worker.commit_loop St runTx fuel w (Worker.remove_sender s pm) in
     (w2, pm2, Worker.mkEntry St s tx (Worker.sm St w) (Worker.sm St w)
                 Worker.GasLimitExceeded :: es)) /\
  Forall (fun e => Worker.e_sender St e <> s)
         (snd (Worker.commit_loop St runTx fuel w (Worker.remove_sender s pm))) /\
  (forall s' l, s' <> s -> In (s', l) pm -> In (s', l) (Worker.remove_sender s pm)).
Proof.
  split; [|split].
  - simpl. unfold Worker.commit_iter. rewrite Hb. simpl. rewrite Hr.
    replace (Worker.h_gasLimit (Worker.header St w) <? g + Worker.gasUsed St w)
      with true by (symmetry; apply Z.ltb_lt; exact Hg).
    unfold Worker.revert, Worker.pop. simpl. rewrite Hb, WorkerFacts.sm_eta.
    replace (Worker.mkW St (Worker.sm St w) (Worker.txs St w) (Worker.header St w)
               (Worker.gasUsed St w)) with w by (destruct w; reflexivity).
    reflexivity.
  - pose proof (WorkerFacts.commit_loop_senders St runTx fuel w
                  (Worker.remove_sender s pm)) as H.
    destruct (WorkerFacts.remove_sender_keys s pm) as [Hn _].
    eapply Forall_impl; [exact H|]. intros e He Heq. cbv beta in He. rewrite Heq in He.
    exact (Hn He).
  - intros s' l Hne Hin. unfold Worker.remove_sender.
    apply filter_In. split; [exact Hin|]. simpl.
    destruct (String.eqb s' s) eqn:E; [|reflexivity].
    apply String.eqb_eq in E. contradiction.
Qed.

Lemma gas_limit_drops_sender_witness :
  let txa := Worker.mkTx "A" 0 100 9 in
  let txb := Worker.mkTx "B" 0 10 5 in
  let runTx := fun (s : Z) (_ : Worker.Header) (t : Worker.Tx) =>
                 @inl (Z * Z) Z (s, Worker.tx_gasLimit t) in
  let w := Worker.mkW Z (Worker.mkSM Z 0 [0]) [] (Worker.mkHeader 1 0 50 0 0) 0 in
  let pm := [("A", [txa; Worker.mkTx "A" 1 10 9]); ("B", [txb])] in
  Worker.commit_loop Z runTx 3 w pm =
    (let '(w2, pm2, es) := Worker.commit_loop Z runTx 2 w (Worker.remove_sender "A" pm) in
     (w2, pm2, Worker.mkEntry Z "A" txa (Worker.sm Z w) (Worker.sm Z w)
                 Worker.GasLimitExceeded :: es)).
Proof.
  intros txa txb runTx w pm.
  exact (proj1 (gas_limit_drops_sender Z runTx 2 w pm "A" txa 0 100
                  eq_refl eq_refl eq_refl)).
Defined.

(** C6.  For every transaction of the commit loop whose [runTx] throws,
    the state manager after the [catch] block's [revert()] is the one
    from just before the transaction's [checkpoint()]: same current state
    (so same state root) and same checkpoint stack; whatever [runTx]
    changed before throwing is gone. *)
Theorem runTx_failure_leaves_state (St : Type)
    (runTx : St -> Worker.Header -> Worker.Tx -> (St * Z) + St)
    (stateRoot : St -> Z) (fuel : nat) (w : Worker.W St)
    (pm : Worker.PendingTxMap) (e : Worker.entry St)
    (Hin : In e (snd (Worker.commit_loop St runTx fuel w pm)))
    (Hf : Worker.e_outcome St e = Worker.RunTxFailed) :
  Worker.e_after St e = Worker.e_before St e /\
  stateRoot (Worker.cur St (Worker.e_after St e))
  = stateRoot (Worker.cur St (Worker.e_before St e)).
Proof.
  assert (H : Worker.e_after St e = Worker.e_before St e).
  { apply (WorkerFacts.commit_loop_reverted St runTx fuel w pm e Hin).
    rewrite Hf. discriminate. }
  split; [exact H | rewrite H; reflexivity].
Qed.

Lemma runTx_failure_leaves_state_witness :
  let tx0 := Worker.mkTx "A" 0 21000 1 in
  let runTx := fun (s : Z) (_ : Worker.Header) (_ : Worker.Tx) => @inr (Z * Z) Z (s + 7) in
  let w := Worker.mkW Z (Worker.mkSM Z 3 [3]) [] (Worker.mkHeader 1 0 50000 0 0) 0 in
  let e := Worker.mkEntry Z "A" tx0 (Worker.mkSM Z 3 [3]) (Worker.mkSM Z 3 [3])
             Worker.RunTxFailed in
  Worker.e_after Z e = Worker.e_before Z e /\
  Worker.cur Z (Worker.e_after Z e) = Worker.cur Z (Worker.e_before Z e).
Proof.
  intros tx0 runTx w e.
  exact (runTx_failure_leaves_state Z runTx (fun s => s) 2 w [("A", [tx0])] e
           ltac:(vm_compute; left; reflexivity) eq_refl).
Defined.

(** ** Pending block *)

(** C10.  [getPendingBlock(number, hash)] with a pair that matches the
    candidate ([number + 1] is the candidate's number and [hash] its
    parent hash) returns the candidate's accumulated transactions under a
    [transactionsTrie] recomputed from them; with a pair that does not
    match, it returns a freshly made header on the requested parent
    (number [number + 1], parent [hash]) with no transactions. *)
Theorem getPendingBlock_parent_match (St : Type)
    (calculateTransactionTrie : list Worker.Tx -> Z) (gasLimit now : Z)
    (w : Worker.W St) (n h : Z) :
  let b := Worker.getPendingBlock St calculateTransactionTrie gasLimit now w
                                  (Some n) (Some h) in
  let hd := Worker.header St w in
  ((n + 1 = Worker.h_number hd /\ h = Worker.h_parentHash hd) ->
   Worker.b_transactions b = Worker.txs St w /\
   Worker.h_transactionsTrie (Worker.b_header b)
     = calculateTransactionTrie (Worker.txs St w) /\
   Worker.h_number (Worker.b_header b) = Worker.h_number hd /\
   Worker.h_parentHash (Worker.b_header b) = Worker.h_parentHash hd) /\
  (~ (n + 1 = Worker.h_number hd /\ h = Worker.h_parentHash hd) ->
   b = Worker.mkBlock (Worker.makeHeader calculateTransactionTrie gasLimit now h (n + 1)) [] /\
   Worker.b_transactions b = [] /\
   Worker.h_number (Worker.b_header b) = n + 1 /\
   Worker.h_parentHash (Worker.b_header b) = h).
Proof.
  simpl. unfold Worker.getPendingBlock.
  destruct (n + 1 =? Worker.h_number (Worker.header St w)) eqn:E1;
  destruct (h =? Worker.h_parentHash (Worker.header St w)) eqn:E2; simpl;
  (split; intros H;
   [ try (destruct H as [H1 H2]; apply Z.eqb_neq in E1 || apply Z.eqb_neq in E2;
          exfalso; contradiction)
   | ]);
  try (repeat split; reflexivity);
  exfalso; apply H; split; [apply Z.eqb_eq; exact E1 | apply Z.eqb_eq; exact E2].
Qed.

Lemma getPendingBlock_parent_match_witness :
  let tx0 := Worker.mkTx "A" 0 21000 1 in
  let w := Worker.mkW unit (Worker.mkSM unit tt []) [tx0]
                      (Worker.mkHeader 5 77 8000000 0 0) 21000 in
  Worker.b_transactions
    (Worker.getPendingBlock unit (fun l => Z.of_nat (length l)) 8000000 100 w
                            (Some 3) (Some 77)) = [] /\
  Worker.b_transactions
    (Worker.getPendingBlock unit (fun l => Z.of_nat (length l)) 8000000 100 w
                            (Some 4) (Some 77)) = [tx0].
Proof.
  intros tx0 w. split.
  - exact (proj1 (proj2 (proj2 (getPendingBlock_parent_match unit
             (fun l => Z.of_nat (length l)) 8000000 100 w 3 77)
             ltac:(simpl; lia)))).
  - exact (proj1 (proj1 (getPendingBlock_parent_match unit
             (fun l => Z.of_nat (length l)) 8000000 100 w 4 77)
             ltac:(simpl; split; reflexivity))).
Defined.

(** ** Journal *)

(** C7 (failing input).  Two transactions inserted into the journal and
    read back as two chunks (a file is read in 64 KiB chunks, so any
    journal larger than that is split): the batch is not reset after the
    end-of-chunk [add(batch)], so the first transaction reaches [add]
    twice.  And 1025 transactions in one chunk reach [add] in one batch
    of 1025, since the batch is flushed only once its length exceeds
    1024.  Trailing bytes without a delimiter are never decoded. *)
Theorem journal_load_repeats_and_overfills :
  let tx1 := [Byte.x01] in
  let tx2 := [Byte.x02] in
  let chunks := [[Byte.x01; Byte.x0d; Byte.x0a]; [Byte.x02; Byte.x0d; Byte.x0a]] in
  concat chunks = Journal.write_all [tx1; tx2] /\
  Journal.load chunks = [[tx1]; [tx1; tx2]] /\
  map (@length Journal.Tx) (Journal.load [Journal.write_all (repeat [Byte.x01] 1025)])
    = [1025%nat] /\
  Journal.load [Journal.write_all [tx1] ++ [Byte.x05]] = [[tx1]].
Proof. vm_compute. repeat split. Qed.

(** ** addPendingTxs *)

(** C9 (counterexample).  If the node's [init()] failed (for instance
    with [state root not equal] on a genesis mismatch), [addPendingTxs]
    rejects with that error, since it first awaits [initPromise]. *)
Lemma addPendingTxs_rejects_after_failed_init :
  let env := Node.mkEnv (fun l => Node.Ok (map (fun _ => true) l, []))
                        (fun t => Node.Ok (Node.tx_id t)) []
                        (fun _ => Node.Ok tt) in
  Node.addPendingTxs (Node.Throw "state root not equal") env
                     [Node.Plain (Node.mkTx 1)]
  = Node.Rejected "state root not equal".
Proof. reflexivity. Qed.

(** C9 (amended).  Once the node's initialisation has succeeded,
    [addPendingTxs] never rejects: if the pool's [addTxs], a transaction
    hash, an [announceTx] or the worker's [addTxs] throws inside the loop,
    it resolves with [false] for each submitted transaction; otherwise it
    resolves with the pool's per-transaction results.  If initialisation
    failed, it rejects with that error. *)
Theorem addPendingTxs_settles (env : Node.Env) (txs : list Node.TxIn) :
  let hashes readies := Node.mapM (fun w => Node.tx_hash env (Node.tx_of w))
                                  (concat readies) in
  let falses := repeat false (length txs) in
  (forall e, Node.addPendingTxs (Node.Throw e) env txs = Node.Rejected e) /\
  (exists r, Node.addPendingTxs (Node.Ok tt) env txs = Node.Resolved r) /\
  (forall e, Node.addTxs env (map Node.wrap txs) = Node.Throw e ->
     Node.addPendingTxs (Node.Ok tt) env txs = Node.Resolved falses) /\
  (forall results readies,
     Node.addTxs env (map Node.wrap txs) = Node.Ok (results, readies) ->
     (readies = [] ->
        Node.addPendingTxs (Node.Ok tt) env txs = Node.Resolved results) /\
     (forall hs, hashes readies = Node.Ok hs ->
        Node.announce_all (Node.peers env) hs = Node.Ok tt ->
        Node.worker_addTxs env readies = Node.Ok tt ->
        Node.addPendingTxs (Node.Ok tt) env txs = Node.Resolved results) /\
     (readies <> [] ->
        ((exists e, hashes readies = Node.Throw e) \/
         (exists hs e, hashes readies = Node.Ok hs /\
                       Node.announce_all (Node.peers env) hs = Node.Throw e) \/
         (exists hs e, hashes readies = Node.Ok hs /\
                       Node.announce_all (Node.peers env) hs = Node.Ok tt /\
                       Node.worker_addTxs env readies = Node.Throw e)) ->
        Node.addPendingTxs (Node.Ok tt) env txs = Node.Resolved falses)).
Proof.
  intros hashes falses. unfold hashes, falses. clear hashes falses.
  split; [intros e; reflexivity|].
  split; [eexists; reflexivity|].
  unfold Node.addPendingTxs, Node.loop_turn, Node.loop_try.
  split; [intros e He; rewrite He; reflexivity|].
  intros results readies Ha. rewrite Ha.
  split; [|split].
  - intros ->. reflexivity.
  - intros hs Hh Hann Hwk.
    destruct (Nat.ltb 0 (length readies)); [|reflexivity].
    rewrite Hh, Hann, Hwk. reflexivity.
  - intros Hne Hcases.
    assert (Hl : Nat.ltb 0 (length readies) = true)
      by (destruct readies; [contradiction | reflexivity]).
    rewrite Hl.
    destruct Hcases as [(e & He)|[(hs & e & Hh & Hann)|(hs & e & Hh & Hann & Hwk)]].
    + rewrite He. reflexivity.
    + rewrite Hh, Hann. reflexivity.
    + rewrite Hh, Hann, Hwk. reflexivity.
Qed.

Lemma addPendingTxs_settles_witness :
  let env := Node.mkEnv (fun _ => Node.Throw "pool error")
                        (fun t => Node.Ok (Node.tx_id t)) []
                        (fun _ => Node.Ok tt) in
  Node.addPendingTxs (Node.Ok tt) env [Node.Plain (Node.mkTx 1); Node.Plain (Node.mkTx 2)]
  = Node.Resolved [false; false].
Proof.
  intros env.
  exact (proj1 (proj2 (proj2 (addPendingTxs_settles env
           [Node.Plain (Node.mkTx 1); Node.Plain (Node.mkTx 2)])))
           "pool error" eq_refl).
Defined.

(** * Further properties of the modelled code *)

(** ** Peer table *)

Module PeerFacts.
Import P2PPeers.

Lemma createPeer_wf (n : Libp2pNodeP) (id : string) :
  wf n -> wf (createPeer n id).
Proof.
  unfold wf, createPeer. simpl. intros H.
  apply map_Forall_insert_2; [lia|].
  eapply map_Forall_impl; [exact H|]. intros i k Hk. simpl in Hk. lia.
Qed.

End PeerFacts.

(** The ['peer:discovery'] handler leaves everything unchanged for an id
    already in the peer map (its ban entry is not even looked at).  For
    an unknown id it consults [isBanned], with that call's side effect
    on the ban table, and adds a new peer for the id exactly when
    [isBanned] answered [false]; no other id's entry changes. *)
Theorem discovery_admission (now : Z) (n : P2PPeers.Libp2pNodeP) (id : string) :
  let n' := P2PPeers.on_discovery now n id in
  (is_Some (P2PPeers.getPeer n id) -> n' = n) /\
  (P2PPeers.getPeer n id = None ->
   (is_Some (P2PPeers.getPeer n' id) <->
    fst (P2P.isBanned now (P2PPeers.node n) id) = false) /\
   P2PPeers.node n' = snd (P2P.isBanned now (P2PPeers.node n) id) /\
   (forall id', id' <> id -> P2PPeers.getPeer n' id' = P2PPeers.getPeer n id')).
Proof.
  simpl. unfold P2PPeers.on_discovery, P2PPeers.getPeer.
  split.
  - intros [k Hk]. rewrite Hk. reflexivity.
  - intros Hn. rewrite Hn.
    destruct (P2P.isBanned now (P2PPeers.node n) id) as [b nd] eqn:Eb.
    destruct b; simpl.
    + split; [|split; [reflexivity|intros; reflexivity]].
      rewrite Hn. split; [intros [? H]; discriminate | discriminate].
    + split; [|split; [reflexivity|]].
      * rewrite lookup_insert_eq. split; [reflexivity | intros _; eexists; reflexivity].
      * intros id' Hne. rewrite lookup_insert_ne by congruence. reflexivity.
Qed.

Lemma discovery_admission_witness :
  let n := P2PPeers.mkNodeP (P2P.mkNode true (<["b" := 500]> ∅)) ∅ 0 in
  (is_Some (P2PPeers.getPeer (P2PPeers.on_discovery 100 n "b") "b") <->
   fst (P2P.isBanned 100 (P2PPeers.node n) "b") = false) /\
  fst (P2P.isBanned 100 (P2PPeers.node n) "b") = true.
Proof.
  intros n. split.
  - exact (proj1 (proj2 (discovery_admission 100 n "b") eq_refl)).
  - reflexivity.
Defined.

(** The ['peer:connect'] handler puts a new [Peer] object for the id
    into the map without consulting or changing the ban table, so a
    banned peer that connects is admitted, and an existing [Peer] object
    for the id is replaced by the new one.  A later discovery of the id
    then changes nothing. *)
Theorem connect_ignores_ban (now : Z) (n : P2PPeers.Libp2pNodeP) (id : string) :
  let n' := P2PPeers.on_connect n id in
  P2PPeers.getPeer n' id = Some (P2PPeers.created n) /\
  P2PPeers.node n' = P2PPeers.node n /\
  (P2PPeers.wf n -> P2PPeers.wf n' /\
   forall k, P2PPeers.getPeer n id = Some k -> P2PPeers.getPeer n' id <> Some k) /\
  P2PPeers.on_discovery now n' id = n'.
Proof.
  simpl. unfold P2PPeers.getPeer, P2PPeers.on_connect.
  split; [unfold P2PPeers.createPeer; simpl; apply lookup_insert_eq|].
  split; [reflexivity|].
  split.
  - intros Hwf. split; [apply PeerFacts.createPeer_wf; exact Hwf|].
    intros k Hk. unfold P2PPeers.createPeer. simpl. rewrite lookup_insert_eq.
    unfold P2PPeers.wf in Hwf. pose proof (Hwf id k Hk) as Hlt. simpl in Hlt.
    intros Heq. injection Heq as Heq. lia.
  - unfold P2PPeers.on_discovery, P2PPeers.createPeer. simpl.
    rewrite lookup_insert_eq. reflexivity.
Qed.

Lemma connect_ignores_ban_witness :
  let n := P2PPeers.mkNodeP (P2P.mkNode true (<["b" := 500]> ∅)) (<["b" := 0%nat]> ∅) 1 in
  P2PPeers.getPeer (P2PPeers.on_connect n "b") "b" <> Some 0%nat.
Proof.
  intros n.
  refine (proj2 (proj1 (proj2 (proj2 (connect_ignores_ban 100 n "b")))
                  _) 0%nat eq_refl).
  unfold P2PPeers.wf. apply map_Forall_singleton. simpl. lia.
Defined.

(** After [abort()] a [ban] call returns [false] and records nothing;
    [abort] keeps the ban entries set before and the peer map as they
    were, and a second [abort] changes nothing. *)
Theorem abort_disables_ban (now : Z) (n : P2PPeers.Libp2pNodeP) (id : string)
    (maxAge : option Z) :
  let n' := P2PPeers.abort n in
  P2P.ban now (P2PPeers.node n') id maxAge = (false, P2PPeers.node n') /\
  P2P.banned (P2PPeers.node n') = P2P.banned (P2PPeers.node n) /\
  P2PPeers.peers n' = P2PPeers.peers n /\
  P2PPeers.abort n' = n'.
Proof.
  simpl. unfold P2PPeers.abort.
  destruct (P2P.started (P2PPeers.node n)) eqn:E; simpl;
    unfold P2P.ban; rewrite ?E; simpl; rewrite ?E; repeat split.
Qed.

(** [parseProtocol] (unnamed/part_001): a node constructed with only
    [GXC2_ETHWIRE] names gets one [ETHProtocol] per name; otherwise the
    constructor throws [Unkonw protocol: name] for the first name that
    is not [GXC2_ETHWIRE]. *)
Theorem construct_protocols_unknown (eth : string) (names : list string) :
  (Forall (fun nm => nm = eth) names ->
   P2PPeers.construct_protocols eth names
   = Node.Ok (map (fun _ => P2PPeers.ETHProtocol) names)) /\
  (forall pre nm post,
     names = pre ++ nm :: post -> Forall (fun x => x = eth) pre -> nm <> eth ->
     P2PPeers.construct_protocols eth names
     = Node.Throw (String.append "Unkonw protocol: " nm)).
Proof.
  unfold P2PPeers.construct_protocols. split.
  - induction names as [|x xs IH]; intros H; [reflexivity|].
    inversion H as [|? ? Hx Hxs]; subst. simpl.
    unfold P2PPeers.parseProtocol at 1. rewrite String.eqb_refl.
    rewrite (IH Hxs). reflexivity.
  - intros pre nm post ->. induction pre as [|x xs IH]; intros Hpre Hne; simpl.
    + unfold P2PPeers.parseProtocol at 1.
      destruct (String.eqb nm eth) eqn:E;
        [apply String.eqb_eq in E; contradiction | reflexivity].
    + inversion Hpre as [|? ? Hx Hxs]; subst.
      unfold P2PPeers.parseProtocol at 1. rewrite String.eqb_refl.
      rewrite (IH Hxs Hne). reflexivity.
Qed.

Lemma construct_protocols_unknown_witness :
  P2PPeers.construct_protocols "gxc2-ethwire" ["gxc2-ethwire"; "les"; "snap"]
  = Node.Throw "Unkonw protocol: les".
Proof.
  refine (proj2 (construct_protocols_unknown "gxc2-ethwire" _)
                ["gxc2-ethwire"] "les" ["snap"] eq_refl _ _).
  - constructor; [reflexivity | constructor].
  - discriminate.
Defined.

(** ** Best peer and task loop *)

Module BestFacts.
Import FullSync.

Lemma find_best_shape (b : option string) (bh : Z) (peers : list (string * Z))
    (p : string) (h : Z) :
  find_best b bh peers = (Some p, h) ->
  (b = Some p /\ h = bh /\ Forall (fun q => snd q <= bh) peers) \/
  (bh < h /\ exists pre post, peers = pre ++ (p, h) :: post /\
     Forall (fun q => snd q < h) pre /\ Forall (fun q => snd q <= h) post).
Proof.
  revert b bh. induction peers as [|[q hq] rest IH]; intros b bh H; simpl in H.
  - left. injection H as -> ->. split; [reflexivity | split; [reflexivity | constructor]].
  - destruct (bh <? hq) eqn:E.
    + apply Z.ltb_lt in E.
      destruct (IH _ _ H) as [(Hb & -> & Hall)|(Hlt & pre & post & -> & Hpre & Hpost)].
      * injection Hb as ->. right. split; [exact E|].
        exists [], rest. split; [reflexivity | split; [constructor | exact Hall]].
      * right. split; [lia|]. exists ((q, hq) :: pre), post.
        split; [reflexivity|]. split; [constructor; [simpl; lia | exact Hpre] | exact Hpost].
    + apply Z.ltb_ge in E.
      destruct (IH _ _ H) as [(Hb & -> & Hall)|(Hlt & pre & post & -> & Hpre & Hpost)].
      * left. split; [exact Hb|]. split; [reflexivity|]. constructor; [simpl; lia | exact Hall].
      * right. split; [exact Hlt|]. exists ((q, hq) :: pre), post.
        split; [reflexivity|]. split; [constructor; [simpl; lia | exact Hpre] | exact Hpost].
Qed.


End BestFacts.

(** The best peer [sync] picks is the first installed peer, in peer-pool
    order, whose advertised height is the maximum; that height is above
    the local height, every earlier peer is strictly lower and every
    later peer is at most as high. *)
Theorem find_best_first_max (latestHeight : Z) (peers : list (string * Z))
    (p : string) (h : Z) :
  FullSync.find_best None latestHeight peers = (Some p, h) ->
  latestHeight < h /\
  exists pre post, peers = pre ++ (p, h) :: post /\
    Forall (fun q => snd q < h) pre /\ Forall (fun q => snd q <= h) post.
Proof.
  intros H.
  destruct (BestFacts.find_best_shape None latestHeight peers p h H)
    as [(Hb & _)|Hr]; [discriminate | exact Hr].
Qed.

Lemma find_best_first_max_witness :
  10 < 20 /\
  exists pre post, [("a", 15); ("b", 20); ("c", 20)] = pre ++ ("b", 20) :: post /\
    Forall (fun q : string * Z => snd q < 20) pre /\
    Forall (fun q : string * Z => snd q <= 20) post.
Proof.
  exact (find_best_first_max 10 [("a", 15); ("b", 20); ("c", 20)] "b" 20 eq_refl).
Defined.



(** ** Commit loop and new candidate block *)

Module CommitFacts.
Import Worker WorkerBlock.

Lemma best_in (pm : PendingTxMap) (s : string) (t : Tx) :
  best pm = Some (s, t) -> exists r, In (s, t :: r) pm.
Proof.
  induction pm as [|[s' txs] rest IH]; simpl; [discriminate|].
  destruct txs as [|t0 ts].
  - intros H. destruct (IH H) as [r Hr]. exists r. right. exact Hr.
  - destruct (best rest) as [[s2 t2]|] eqn:Eb.
    + destruct (tx_gasPrice t0 <? tx_gasPrice t2); intros H; injection H as -> ->.
      * destruct (IH eq_refl) as [r Hr]. exists r. right. exact Hr.
      * exists ts. left. reflexivity.
    + intros H. injection H as -> ->. exists ts. left. reflexivity.
Qed.

Lemma size_remove_le (s : string) (pm : PendingTxMap) :
  (size (remove_sender s pm) <= size pm)%nat.
Proof.
  unfold remove_sender.
  induction pm as [|[s' txs] rest IH]; simpl; [lia|].
  destruct (String.eqb s' s); simpl; lia.
Qed.

Lemma size_remove_lt (s : string) (t : Tx) (r : list Tx) (pm : PendingTxMap) :
  In (s, t :: r) pm -> (size (remove_sender s pm) < size pm)%nat.
Proof.
  pose proof (size_remove_le s) as Hle. unfold remove_sender in *.
  induction pm as [|[s' txs] rest IH]; simpl; [intros []|].
  intros [Heq|Hin].
  - injection Heq as -> ->. rewrite String.eqb_refl. simpl.
    specialize (Hle rest). lia.
  - specialize (IH Hin). destruct (String.eqb s' s); simpl; lia.
Qed.

Definition tl_sender (s : string) (pm : PendingTxMap) : PendingTxMap :=
  map (fun e => if String.eqb (fst e) s then (fst e, tl (snd e)) else e) pm.

Lemma size_tl_le (s : string) (pm : PendingTxMap) :
  (size (tl_sender s pm) <= size pm)%nat.
Proof.
  unfold tl_sender.
  induction pm as [|[s' txs] rest IH]; simpl; [lia|].
  destruct (String.eqb s' s); simpl; [|lia].
  destruct txs; simpl; lia.
Qed.

Lemma size_tl_lt (s : string) (t : Tx) (r : list Tx) (pm : PendingTxMap) :
  In (s, t :: r) pm -> (size (tl_sender s pm) < size pm)%nat.
Proof.
  pose proof (size_tl_le s) as Hle. unfold tl_sender in *.
  induction pm as [|[s' txs] rest IH]; simpl; [intros []|].
  intros [Heq|Hin].
  - injection Heq as -> ->. rewrite String.eqb_refl. simpl.
    specialize (Hle rest). lia.
  - specialize (IH Hin). destruct (String.eqb s' s); simpl; [|lia].
    destruct txs; simpl; lia.
Qed.

Lemma size_pop_shift_lt (pm : PendingTxMap) (s : string) (t : Tx) :
  best pm = Some (s, t) ->
  (size (pop pm) < size pm)%nat /\ (size (shift pm) < size pm)%nat.
Proof.
  intros Hb. destruct (best_in pm s t Hb) as [r Hin].
  unfold pop, shift. rewrite Hb. split.
  - exact (size_remove_lt s t r pm Hin).
  - exact (size_tl_lt s t r pm Hin).
Qed.

Section loop.
Variable St : Type.
Variable runTx : St -> Header -> Tx -> (St * Z) + St.

Lemma commit_iter_none (w : W St) (pm : PendingTxMap) :
  commit_iter St runTx w pm = None -> best pm = None.
Proof.
  unfold commit_iter. destruct (best pm) as [[s tx]|]; [|reflexivity].
  destruct (runTx _ _ _) as [[st' g]|partial];
    [destruct (h_gasLimit (header St w) <? g + gasUsed St w)|]; discriminate.
Qed.

Lemma commit_iter_step (w w1 : W St) (pm pm1 : PendingTxMap) (e : entry St) :
  commit_iter St runTx w pm = Some (w1, pm1, e) ->
  header St w1 = header St w /\
  stack St (sm St w1) = stack St (sm St w) /\
  txs St w1 = txs St w ++ (if included (e_outcome St e) then [e_tx St e] else []) /\
  (gasUsed St w <= h_gasLimit (header St w) ->
   gasUsed St w1 <= h_gasLimit (header St w1)) /\
  (size pm1 < size pm)%nat.
Proof.
  unfold commit_iter.
  destruct (best pm) as [[s tx]|] eqn:Eb; [|discriminate].
  destruct (size_pop_shift_lt pm s tx Eb) as [Hpop Hshift].
  destruct (runTx _ _ _) as [[st' g]|partial];
    [destruct (h_gasLimit (header St w) <? g + gasUsed St w) eqn:Eg|];
    intros H; injection H as <- <- <-; simpl;
    (split; [reflexivity|]); (split; [reflexivity|]);
    rewrite ?app_nil_r;
    (split; [reflexivity|]); (split; [|assumption]); try (intros; assumption).
  apply Z.ltb_ge in Eg. intros _. lia.
Qed.

Lemma commit_loop_inv (fuel : nat) (w : W St) (pm : PendingTxMap) :
  let r := commit_loop St runTx fuel w pm in
  header St (fst (fst r)) = header St w /\
  stack St (sm St (fst (fst r))) = stack St (sm St w) /\
  txs St (fst (fst r))
    = txs St w ++ map (e_tx St)
                      (List.filter (fun e => included (e_outcome St e)) (snd r)) /\
  (gasUsed St w <= h_gasLimit (header St w) ->
   gasUsed St (fst (fst r)) <= h_gasLimit (header St (fst (fst r)))).
Proof.
  revert w pm. induction fuel as [|f IH]; intros w pm; simpl.
  - rewrite app_nil_r. repeat split; intros; assumption.
  - destruct (commit_iter St runTx w pm) as [[[w1 pm1] e]|] eqn:Ei.
    + destruct (commit_iter_step w w1 pm pm1 e Ei) as (Hh & Hs & Ht & Hg & _).
      specialize (IH w1 pm1).
      destruct (commit_loop St runTx f w1 pm1) as [[w2 pm2] es]. simpl in *.
      destruct IH as (Hh2 & Hs2 & Ht2 & Hg2).
      split; [congruence|]. split; [congruence|]. split.
      * rewrite Ht2, Ht. destruct (included (e_outcome St e)); simpl;
          rewrite ?app_nil_r, <- ?app_assoc; reflexivity.
      * intros H0. apply Hg2. apply Hg. exact H0.
    + simpl. rewrite app_nil_r. repeat split; intros; assumption.
Qed.

Lemma commit_loop_drain (fuel : nat) (w : W St) (pm : PendingTxMap) :
  (size pm < fuel)%nat ->
  best (snd (fst (commit_loop St runTx fuel w pm))) = None /\
  (length (snd (commit_loop St runTx fuel w pm)) <= size pm)%nat.
Proof.
  revert w pm. induction fuel as [|f IH]; intros w pm Hf; [lia|]. simpl.
  destruct (commit_iter St runTx w pm) as [[[w1 pm1] e]|] eqn:Ei.
  - destruct (commit_iter_step w w1 pm pm1 e Ei) as (_ & _ & _ & _ & Hlt).
    specialize (IH w1 pm1 ltac:(lia)).
    destruct (commit_loop St runTx f w1 pm1) as [[w2 pm2] es]. simpl in *.
    destruct IH as [Hb Hl]. split; [exact Hb | lia].
  - simpl. split; [exact (commit_iter_none w pm Ei) | lia].
Qed.
End loop.

End CommitFacts.

(** [commit(pendingMap)] never lets the candidate's gas exceed its
    limit: if [gasUsed <= header.gasLimit] before, the same holds after.
    The header and the depth of the state manager's checkpoint stack are
    unchanged, and the transactions appended to [txs] are exactly those
    of the iterations that took the [commit()] branch, in loop order. *)
Theorem commit_gas_within_limit (St : Type)
    (runTx : St -> Worker.Header -> Worker.Tx -> (St * Z) + St)
    (w : Worker.W St) (pm : Worker.PendingTxMap) :
  Worker.gasUsed St w <= Worker.h_gasLimit (Worker.header St w) ->
  let r := Worker.commit St runTx w pm in
  Worker.gasUsed St (fst (fst r)) <= Worker.h_gasLimit (Worker.header St (fst (fst r))) /\
  Worker.header St (fst (fst r)) = Worker.header St w /\
  Worker.stack St (Worker.sm St (fst (fst r))) = Worker.stack St (Worker.sm St w) /\
  Worker.txs St (fst (fst r))
    = Worker.txs St w ++
      map (Worker.e_tx St)
          (List.filter (fun e => WorkerBlock.included (Worker.e_outcome St e)) (snd r)).
Proof.
  intros Hg. unfold Worker.commit.
  destruct (CommitFacts.commit_loop_inv St runTx (S (Worker.size pm)) w pm)
    as (Hh & Hs & Ht & Hgas).
  split; [exact (Hgas Hg)|]. split; [exact Hh|]. split; [exact Hs | exact Ht].
Qed.

Lemma commit_gas_within_limit_witness :
  let tA := Worker.mkTx "A" 0 60 2 in
  let tB := Worker.mkTx "B" 0 50 1 in
  let w := Worker.mkW unit (Worker.mkSM unit tt [tt]) []
                      (Worker.mkHeader 1 7 100 0 0) 0 in
  let r := Worker.commit unit (fun _ _ t => inl (tt, Worker.tx_gasLimit t)) w
                         [("A", [tA]); ("B", [tB])] in
  Worker.gasUsed unit (fst (fst r)) <= 100 /\ Worker.txs unit (fst (fst r)) = [tA].
Proof.
  intros tA tB w r. split.
  - exact (proj1 (commit_gas_within_limit unit
             (fun _ _ t => inl (tt, Worker.tx_gasLimit t)) w
             [("A", [tA]); ("B", [tB])] ltac:(simpl; lia))).
  - vm_compute. reflexivity.
Defined.

(** The [while (tx)] loop of [commit(pendingMap)] ends with the map
    exhausted ([peek()] gives nothing), after at most as many iterations
    as the map held transactions: every iteration removes at least the
    peeked transaction. *)
Theorem commit_drains_pending (St : Type)
    (runTx : St -> Worker.Header -> Worker.Tx -> (St * Z) + St)
    (w : Worker.W St) (pm : Worker.PendingTxMap) :
  Worker.peek (snd (fst (Worker.commit St runTx w pm))) = None /\
  (length (snd (Worker.commit St runTx w pm)) <= Worker.size pm)%nat.
Proof.
  unfold Worker.commit, Worker.peek.
  destruct (CommitFacts.commit_loop_drain St runTx (S (Worker.size pm)) w pm
              ltac:(lia)) as [Hb Hl].
  rewrite Hb. split; [reflexivity | exact Hl].
Qed.

(** After [_newBlock] on a parent block, [getPendingBlock] with the
    parent's number and hash returns a block numbered [parent + 1] on
    that parent, holding exactly the transactions the commit loop
    included, in order, with their [transactionsTrie]; its gas stays
    within a non-negative limit, the state manager keeps one open
    checkpoint, holding the parent's state, and the pending map is
    exhausted. *)
Theorem newBlock_pending_block (St : Type)
    (runTx : St -> Worker.Header -> Worker.Tx -> (St * Z) + St)
    (calculateTransactionTrie : list Worker.Tx -> Z)
    (gasLimit now blockNow parentNumber parentHash : Z) (parentState : St)
    (pm : Worker.PendingTxMap) :
  0 <= gasLimit ->
  let r := WorkerBlock._newBlock St runTx calculateTransactionTrie gasLimit now
                                 parentNumber parentHash parentState pm in
  let b := Worker.getPendingBlock St calculateTransactionTrie gasLimit blockNow
                                  (fst (fst r)) (Some parentNumber) (Some parentHash) in
  Worker.h_number (Worker.b_header b) = parentNumber + 1 /\
  Worker.h_parentHash (Worker.b_header b) = parentHash /\
  Worker.b_transactions b
    = map (Worker.e_tx St)
          (List.filter (fun e => WorkerBlock.included (Worker.e_outcome St e)) (snd r)) /\
  Worker.h_transactionsTrie (Worker.b_header b)
    = calculateTransactionTrie (Worker.b_transactions b) /\
  Worker.gasUsed St (fst (fst r)) <= gasLimit /\
  Worker.stack St (Worker.sm St (fst (fst r))) = [parentState] /\
  Worker.peek (snd (fst r)) = None.
Proof.
  intros Hl. unfold WorkerBlock._newBlock, Worker.commit.
  set (w := Worker.mkW St _ [] _ 0).
  set (fuel := S (Worker.size pm)).
  destruct (CommitFacts.commit_loop_inv St runTx fuel w pm) as (Hh & Hs & Ht & Hg).
  destruct (CommitFacts.commit_loop_drain St runTx fuel w pm ltac:(unfold fuel; lia))
    as [Hb _].
  destruct (Worker.commit_loop St runTx fuel w pm) as [[w' pm'] es]. simpl in *.
  specialize (Hg ltac:(exact Hl)).
  unfold Worker.getPendingBlock. rewrite Hh. simpl.
  rewrite Z.eqb_refl, Z.eqb_refl. simpl.
  rewrite Ht. simpl.
  split; [reflexivity|]. split; [reflexivity|]. split; [reflexivity|].
  split; [reflexivity|]. split; [rewrite Hh in Hg; exact Hg|].
  split; [exact Hs|]. unfold Worker.peek. rewrite Hb. reflexivity.
Qed.

Lemma newBlock_pending_block_witness :
  let tA := Worker.mkTx "A" 0 60 2 in
  let tB := Worker.mkTx "B" 0 50 1 in
  let r := WorkerBlock._newBlock unit (fun _ _ t => inl (tt, Worker.tx_gasLimit t))
             (fun l => Z.of_nat (length l)) 100 0 9 77 tt
             [("A", [tA]); ("B", [tB])] in
  Worker.h_number (Worker.b_header
    (Worker.getPendingBlock unit (fun l => Z.of_nat (length l)) 100 5
                            (fst (fst r)) (Some 9) (Some 77))) = 10.
Proof.
  intros tA tB r.
  exact (proj1 (newBlock_pending_block unit (fun _ _ t => inl (tt, Worker.tx_gasLimit t))
           (fun l => Z.of_nat (length l)) 100 0 5 9 77 tt
           [("A", [tA]); ("B", [tB])] ltac:(lia))).
Defined.

(** ** Journal *)

Module JournalFacts.
Import Journal.

Lemma fold_insert (txs : list Tx) (acc : list Byte.byte) :
  fold_left insert txs acc = acc ++ concat (map (fun t => t ++ bufferSplit) txs).
Proof.
  revert acc. induction txs as [|t ts IH]; intros acc; simpl.
  - rewrite app_nil_r. reflexivity.
  - rewrite IH. unfold insert. rewrite !app_assoc. reflexivity.
Qed.

Lemma write_all_concat (txs : list Tx) :
  write_all txs = concat (map (fun t => t ++ bufferSplit) txs).
Proof. unfold write_all. rewrite fold_insert. reflexivity. Qed.

Lemma indexOf_entry (tx rest : list Byte.byte) :
  indexOf bufferSplit tx = None ->
  indexOf bufferSplit (tx ++ bufferSplit ++ rest) = Some (length tx).
Proof.
  induction tx as [|x xs IH]; intros H; [reflexivity|].
  cbn [indexOf app] in H |- *.
  destruct (starts_with bufferSplit (x :: xs)) eqn:Es; [discriminate H|].
  destruct (indexOf bufferSplit xs) eqn:Ei; [discriminate H|].
  rewrite (IH eq_refl).
  assert (Hs : starts_with bufferSplit (x :: xs ++ bufferSplit ++ rest) = false).
  { destruct xs as [|y ys].
    - simpl. rewrite andb_false_r. reflexivity.
    - simpl in Es |- *. exact Es. }
  rewrite Hs. reflexivity.
Qed.

Lemma length_entries (txs : list Tx) :
  (length txs <= length (concat (map (fun t => t ++ bufferSplit) txs)))%nat.
Proof.
  induction txs as [|t ts IH]; simpl; [lia|].
  rewrite !length_app. simpl. lia.
Qed.

Lemma split_loop_entries (txs : list Tx) (rest : list Byte.byte)
    (fuel : nat) (r : Reader) :
  Forall (fun tx => indexOf bufferSplit tx = None) txs ->
  indexOf bufferSplit rest = None ->
  bufferInput r = concat (map (fun t => t ++ bufferSplit) txs) ++ rest ->
  (length (batch r) <= 1024)%nat ->
  (length txs < fuel)%nat ->
  let r' := split_loop fuel r in
  bufferInput r' = rest /\ (length (batch r') <= 1024)%nat /\
  exists new, adds r' = adds r ++ new /\
    Forall (fun b => length b = 1025%nat) new /\
    concat new ++ batch r' = batch r ++ txs.
Proof.
  revert fuel r. induction txs as [|t ts IH]; intros fuel r Htx Hrest Hbuf Hb Hf.
  - destruct fuel as [|f]; [simpl in Hf; lia|].
    destruct r as [bi bt ad]. simpl in Hbuf, Hb |- *. subst bi.
    rewrite Hrest. simpl.
    split; [reflexivity|]. split; [exact Hb|].
    exists []. rewrite !app_nil_r. split; [reflexivity|]. split; [constructor|reflexivity].
  - inversion Htx as [|? ? Ht Hts]; subst.
    destruct fuel as [|f]; [simpl in Hf; lia|]. simpl.
    set (X := concat (map (fun t0 => t0 ++ bufferSplit) ts) ++ rest).
    assert (Hbuf' : bufferInput r = t ++ bufferSplit ++ X).
    { rewrite Hbuf. simpl. unfold X. rewrite <- !app_assoc. reflexivity. }
    rewrite Hbuf', (indexOf_entry t X Ht).
    assert (Hfirst : firstn (length t) (t ++ bufferSplit ++ X) = t).
    { rewrite firstn_app, firstn_all, Nat.sub_diag. simpl. apply app_nil_r. }
    assert (Hskip : skipn (length t + 2) (t ++ bufferSplit ++ X) = X).
    { rewrite skipn_app, skipn_all2 by lia.
      replace (length t + 2 - length t)%nat with 2%nat by lia.
      reflexivity. }
    rewrite Hfirst, Hskip.
    unfold Tx in *.
    destruct (Nat.ltb 1024 _) eqn:El.
    + apply Nat.ltb_lt in El. rewrite length_app in El. simpl in El.
      destruct (IH f (mkReader X [] (adds r ++ [batch r ++ [t]])) Hts Hrest
                   eq_refl ltac:(simpl; lia) ltac:(simpl in Hf; lia))
        as (Hr & Hb' & new & Hadds & Hall & Hcat).
      split; [exact Hr|]. split; [exact Hb'|].
      exists ((batch r ++ [t]) :: new). simpl in Hadds, Hcat. unfold Tx in *.
      split; [rewrite Hadds, <- app_assoc; reflexivity|].
      split; [constructor; [rewrite length_app; simpl; lia | exact Hall]|].
      simpl. rewrite <- app_assoc, Hcat, <- app_assoc. reflexivity.
    + apply Nat.ltb_ge in El.
      destruct (IH f (mkReader X (batch r ++ [t]) (adds r)) Hts Hrest
                   eq_refl El ltac:(simpl in Hf; lia))
        as (Hr & Hb' & new & Hadds & Hall & Hcat).
      split; [exact Hr|]. split; [exact Hb'|].
      exists new. simpl in Hadds, Hcat. unfold Tx in *.
      split; [exact Hadds|]. split; [exact Hall|].
      rewrite Hcat, <- app_assoc. reflexivity.
Qed.

(** A journal read in one chunk: the arguments of [add] are full
    batches of 1025 and then the rest, if any. *)
Lemma load_one_chunk (txs : list Tx) (rest : list Byte.byte) :
  Forall (fun tx => indexOf bufferSplit tx = None) txs ->
  indexOf bufferSplit rest = None ->
  exists new last,
    load [write_all txs ++ rest] = new ++ (if Nat.ltb 0 (length last) then [last] else []) /\
    Forall (fun b => length b = 1025%nat) new /\
    (length last <= 1024)%nat /\
    concat new ++ last = txs.
Proof.
  intros Htx Hrest. unfold load. simpl. unfold on_data. simpl.
  rewrite write_all_concat.
  pose proof (length_entries txs) as Hlen.
  set (buf := concat (map (fun t => t ++ bufferSplit) txs) ++ rest).
  destruct (split_loop_entries txs rest (S (length buf)) (mkReader buf [] []) Htx Hrest
              eq_refl ltac:(simpl; lia)
              ltac:(unfold buf; rewrite length_app; lia))
    as (_ & Hb & new & Hadds & Hall & Hcat).
  simpl in Hadds, Hcat.
  exists new, (batch (split_loop (S (length buf)) (mkReader buf [] []))).
  destruct (Nat.ltb 0 _) eqn:E; simpl; rewrite Hadds; simpl.
  - split; [reflexivity|]. split; [exact Hall|]. split; [exact Hb | exact Hcat].
  - rewrite app_nil_r. split; [reflexivity|]. split; [exact Hall|].
    split; [exact Hb | exact Hcat].
Qed.

Lemma one_chunk_small (txs : list Tx) (rest : list Byte.byte) :
  Forall (fun tx => indexOf bufferSplit tx = None) txs ->
  indexOf bufferSplit rest = None ->
  (1 <= length txs <= 1024)%nat ->
  load [write_all txs ++ rest] = [txs].
Proof.
  intros Htx Hrest Hn.
  destruct (load_one_chunk txs rest Htx Hrest) as (new & last & Hl & Hall & Hb & Hcat).
  destruct new as [|b0 bs].
  - simpl in Hcat. subst last. rewrite Hl. simpl.
    destruct (Nat.ltb 0 (length txs)) eqn:E; [reflexivity|].
    apply Nat.ltb_ge in E. lia.
  - exfalso. apply Forall_inv in Hall. simpl in Hall.
    rewrite <- Hcat in Hn. simpl in Hn. rewrite !length_app in Hn. lia.
Qed.

End JournalFacts.

(** A journal of transactions whose bytes hold no [\r\n], followed by
    trailing bytes without a delimiter (an incomplete write), read in
    one chunk: [add] receives each transaction exactly once, in
    insertion order, in batches of 1 to 1025 transactions, and the
    trailing bytes are dropped. *)
Theorem journal_one_chunk_roundtrip (txs : list Journal.Tx) (rest : list Byte.byte) :
  Forall (fun tx => Journal.indexOf Journal.bufferSplit tx = None) txs ->
  Journal.indexOf Journal.bufferSplit rest = None ->
  concat (Journal.load [Journal.write_all txs ++ rest]) = txs /\
  Forall (fun b => (1 <= length b <= 1025)%nat)
         (Journal.load [Journal.write_all txs ++ rest]).
Proof.
  intros Htx Hrest.
  destruct (JournalFacts.load_one_chunk txs rest Htx Hrest)
    as (new & last & Hl & Hall & Hb & Hcat).
  rewrite Hl. split.
  - rewrite concat_app. destruct (Nat.ltb 0 (length last)) eqn:E; simpl.
    + rewrite app_nil_r. exact Hcat.
    + apply Nat.ltb_ge in E. destruct last; [|simpl in E; lia].
      rewrite !app_nil_r in *. exact Hcat.
  - apply Forall_app. split.
    + eapply Forall_impl; [exact Hall|]. intros b Hb1. simpl in Hb1. lia.
    + destruct (Nat.ltb 0 (length last)) eqn:E; [|constructor].
      apply Nat.ltb_lt in E. constructor; [lia | constructor].
Qed.

Lemma journal_one_chunk_roundtrip_witness :
  concat (Journal.load [Journal.write_all [[Byte.x01]; [Byte.x02; Byte.x0d]] ++ [Byte.x05]])
  = [[Byte.x01]; [Byte.x02; Byte.x0d]].
Proof.
  refine (proj1 (journal_one_chunk_roundtrip [[Byte.x01]; [Byte.x02; Byte.x0d]]
                   [Byte.x05] _ eq_refl)).
  constructor; [reflexivity | constructor; [reflexivity | constructor]].
Defined.

(** A journal of 1 to 1024 transactions whose bytes hold no [\r\n], read
    in one chunk, reaches [add] in a single call with all of them, in
    insertion order, whatever incomplete trailing bytes follow. *)
Theorem journal_small_single_add (txs : list Journal.Tx) (rest : list Byte.byte) :
  Forall (fun tx => Journal.indexOf Journal.bufferSplit tx = None) txs ->
  Journal.indexOf Journal.bufferSplit rest = None ->
  (1 <= length txs <= 1024)%nat ->
  Journal.load [Journal.write_all txs ++ rest] = [txs].
Proof. apply JournalFacts.one_chunk_small. Qed.

Lemma journal_small_single_add_witness :
  Journal.load [Journal.write_all [[Byte.x01]; [Byte.x02]] ++ []] = [[[Byte.x01]; [Byte.x02]]].
Proof.
  refine (journal_small_single_add [[Byte.x01]; [Byte.x02]] [] _ eq_refl ltac:(simpl; lia)).
  constructor; [reflexivity | constructor; [reflexivity | constructor]].
Defined.



(** After [rotate(all)] whose writes all succeed, the journal holds the
    pool's transactions sender by sender, [journaled] counts them, and
    loading the journal in one chunk gives each of them back once, in
    that order (transactions without [\r\n] in their bytes); if a write
    fails the journal is left as it was. *)
Theorem rotate_then_load (file : list Byte.byte)
    (all : list (list Byte.byte * list Journal.Tx)) (writes : list bool) :
  Forall (fun tx => Journal.indexOf Journal.bufferSplit tx = None) (concat (map snd all)) ->
  (forallb (fun ok => ok) writes = true ->
   snd (JournalRotate.rotate file all writes) = Some (length (concat (map snd all))) /\
   concat (Journal.load [fst (JournalRotate.rotate file all writes)])
   = concat (map snd all)) /\
  (forallb (fun ok => ok) writes = false ->
   JournalRotate.rotate file all writes = (file, None)).
Proof.
  intros Htx. unfold JournalRotate.rotate.
  split; intros Hw; rewrite Hw; [|reflexivity]. simpl. split.
  - f_equal.
    assert (Hj : forall (l : list (list Byte.byte * list Journal.Tx)) j,
               fold_left (fun j kv => (j + length (snd kv))%nat) l j
               = (j + length (concat (map snd l)))%nat).
    { induction l as [|[k v] l IH]; intros j; simpl; [lia|].
      rewrite IH, length_app. lia. }
    rewrite Hj. reflexivity.
  - pose proof (journal_one_chunk_roundtrip (concat (map snd all)) [] Htx eq_refl) as [H _].
    rewrite app_nil_r in H. exact H.
Qed.

Lemma rotate_then_load_witness :
  JournalRotate.rotate [Byte.x07] [([Byte.x0a], [[Byte.x01]])] [false] = ([Byte.x07], None).
Proof.
  refine (proj2 (rotate_then_load [Byte.x07] [([Byte.x0a], [[Byte.x01]])] [false] _) eq_refl).
  constructor; [reflexivity | constructor].
Defined.

(** ** Node.processBlocks *)

(** [processBlocks(l1 ++ l2)] processes [l1] and then, only if no block of
    [l1] threw, [l2] from the state [l1] left; a throw ends the loop, so
    no block after the first failing one is processed. *)
Theorem processBlocks_app (S B : Type) (processBlock : S -> B -> S * option string)
    (s : S) (l1 l2 : list B) :
  NodeBlocks.processBlocks S B processBlock s (l1 ++ l2) =
  match NodeBlocks.processBlocks S B processBlock s l1 with
  | (s1, None) => NodeBlocks.processBlocks S B processBlock s1 l2
  | (s1, Some e) => (s1, Some e)
  end.
Proof.
  revert s. induction l1 as [|b rest IH]; intros s; simpl; [reflexivity|].
  destruct (processBlock s b) as [s1 [e|]]; [reflexivity | apply IH].
Qed.
